(** * BLE credential provisioning (src/provisioning.cpp)

    A shallow embedding of the [Provisioning] namespace: the credential
    parser ([isWhitespace], [trim], [parseCredentials]) as pure functions
    on byte strings, and the session (the globals [g_server] ...
    [g_restartAdvertising], the operations [begin], [startBle], [stopBle],
    [isActive], [notifyStatus], [loop] and the BLE handlers [onConnect],
    [onDisconnect], [onWrite]) as computations in a state monad over a
    [World] that holds the globals and the log of calls made to the BLE
    stack. *)

From Stdlib Require Import List Bool Arith ZArith Lia.
From Stdlib Require Import Ascii String.
Import ListNotations.

Local Open Scope string_scope.
Local Open Scope list_scope.

(** ** Strings *)

(** [std::string]: a sequence of bytes; it may hold any byte, NUL too. *)
Definition std_string := list ascii.

(** Arduino's [String]. Every [String] of this file is built from a C
    string (a literal, or [c_str()] of another string), so it ends at the
    first NUL of its source. *)
Definition ArduinoString := string.

Definition NUL : ascii := "000"%char.
Definition TAB : ascii := "009"%char.
Definition LF : ascii := "010"%char.
Definition CR : ascii := "013"%char.
Definition SPACE : ascii := " "%char.
Definition PIPE : ascii := "|"%char.

(** A literal of the source as a [std::string]. *)
Definition lit (s : string) : std_string := list_ascii_of_string s.

(** [s.c_str()] as the callee reads it: the bytes before the first NUL. *)
Fixpoint c_str (s : std_string) : list ascii :=
  match s with
  | [] => []
  | c :: rest => if Ascii.eqb c NUL then [] else c :: c_str rest
  end.

(** The [String] constructor that takes a C string. *)
Definition String_of_c_str (cs : list ascii) : ArduinoString :=
  string_of_list_ascii cs.

(** [s.find(c)]: the index of the first [c], [None] for [npos]. *)
Fixpoint find (s : std_string) (c : ascii) : option nat :=
  match s with
  | [] => None
  | x :: rest =>
      if Ascii.eqb x c then Some 0
      else match find rest c with
           | Some i => Some (S i)
           | None => None
           end
  end.

(** [s.erase(std::remove(s.begin(), s.end(), c), s.end())]. *)
Definition erase_remove (s : std_string) (c : ascii) : std_string :=
  filter (fun x => negb (Ascii.eqb x c)) s.

Definition empty (s : std_string) : bool :=
  match s with
  | [] => true
  | _ :: _ => false
  end.

(** [s.back()] and [s.pop_back()]; both are only used on a non-empty
    string. *)
Definition back (s : std_string) : ascii := last s NUL.
Definition pop_back (s : std_string) : std_string := removelast s.

(** ** The credential parser *)

Record ParsedCredentials := mkParsed {
  valid : bool;
  ssid : ArduinoString;
  password : ArduinoString;
  error : ArduinoString
}.

(** The default-constructed [ParsedCredentials result;]. *)
Definition result0 : ParsedCredentials :=
  mkParsed false EmptyString EmptyString EmptyString.

Definition isWhitespace (c : ascii) : bool :=
  Ascii.eqb c CR || Ascii.eqb c LF || Ascii.eqb c TAB || Ascii.eqb c SPACE.

(** First loop of [trim]: erase the front while it is whitespace. *)
Fixpoint trim_front (text : std_string) : std_string :=
  match text with
  | [] => []
  | c :: rest => if isWhitespace c then trim_front rest else text
  end.

(** Second loop of [trim]: pop the back while it is whitespace. Every
    iteration shortens [text], so [length text] iterations are enough
    ([trim_back_loop_done]). *)
Fixpoint trim_back_loop (fuel : nat) (text : std_string) : std_string :=
  match fuel with
  | O => text
  | S fuel' =>
      if negb (empty text) && isWhitespace (back text)
      then trim_back_loop fuel' (pop_back text)
      else text
  end.

Definition trim_back (text : std_string) : std_string :=
  trim_back_loop (List.length text) text.

Definition trim (text : std_string) : std_string :=
  trim_back (trim_front text).

Definition parseCredentials (raw : std_string) : ParsedCredentials :=
  let result := result0 in
  if empty raw then
    mkParsed (valid result) (ssid result) (password result) "vacio"
  else
    let payload := erase_remove raw CR in
    let separator := find payload LF in
    let separator :=
      match separator with
      | None => find payload PIPE
      | Some _ => separator
      end in
    match separator with
    | None =>
        mkParsed (valid result) (ssid result) (password result) "formato"
    | Some separator =>
        let ssid0 := firstn separator payload in
        let password0 := skipn (separator + 1) payload in
        let ssid0 := trim ssid0 in
        let password0 := trim password0 in
        if empty ssid0 then
          mkParsed (valid result) (ssid result) (password result) "ssid"
        else
          mkParsed true
            (String_of_c_str (c_str ssid0))
            (String_of_c_str (c_str password0))
            (error result)
    end.

(** The two outcomes of the parser, as the statements below name them. *)
Definition parse_error (reason : ArduinoString) : ParsedCredentials :=
  mkParsed false EmptyString EmptyString reason.

Definition parse_ok (ssid0 password0 : std_string) : ParsedCredentials :=
  mkParsed true (String_of_c_str ssid0) (String_of_c_str password0) EmptyString.

(** ** The BLE stack, as the module sees it *)

(** Modelled from the spec: the type [CredentialsCallback] is declared in
    provisioning.h, which is not among the sources; the spec gives it as an
    optional function of shape (ssid, password) -> void. An empty
    [std::function] is [None]; an application function is named by a
    number, its body being application code. *)
Definition CredentialsCallback := option nat.

(** The objects behind the three pointers. The server and the advertising
    object are singletons of the stack; the characteristic holds the value
    that [setValue] stores and a peer's write replaces. *)
Inductive BLEServer := TheServer.
Inductive BLEAdvertising := TheAdvertising.
Record BLECharacteristic := mkCharacteristic { m_value : std_string }.

Definition kServiceUuid : ArduinoString :=
  "12345678-1234-1234-1234-1234567890ab".
Definition kCharacteristicUuid : ArduinoString :=
  "87654321-4321-4321-4321-0987654321ba".
Definition kInvalidConnId : Z := 0xFFFF.

(** A [uint16_t] holds its value modulo 2^16. *)
Definition uint16 (z : Z) : Z := z mod 65536.

(** The calls the module makes into the BLE stack and into the
    application, in the order they are made. *)
Inductive BleCall :=
| BLEDevice_init (name : ArduinoString)
| BLEDevice_createServer
| Server_setCallbacks
| Server_createService (uuid : ArduinoString)
| Service_createCharacteristic (uuid : ArduinoString)
| Characteristic_addDescriptor
| Characteristic_setCallbacks
| Characteristic_setValue (value : std_string)
| Characteristic_notify
| Service_start
| Advertising_addServiceUUID (uuid : ArduinoString)
| Advertising_setAdvertisementData (name uuid : ArduinoString)
| Advertising_setScanResponse (on : bool)
| Advertising_setMinPreferred (v : Z)
| Advertising_setMaxPreferred (v : Z)
| Advertising_start
| Advertising_stop
| Server_disconnect (connId : Z)
| Callback_call (f : nat) (ssid password : ArduinoString).

(** The globals of the anonymous namespace (lines 18-27), then the stack:
    the calls made so far, and what [BLEDevice::getAdvertising()] answers
    to its n-th call (the stack may have no advertising object to give). *)
Record World := mkWorld {
  g_server : option BLEServer;
  g_characteristic : option BLECharacteristic;
  g_advertising : option BLEAdvertising;
  g_callback : CredentialsCallback;
  g_deviceId : ArduinoString;
  g_initialized : bool;
  g_sessionActive : bool;
  g_centralConnected : bool;
  g_connId : Z;
  g_restartAdvertising : bool;
  ble_calls : list BleCall;
  ble_getAdvertising : nat -> option BLEAdvertising;
  ble_getAdvertising_count : nat
}.

(** The process starts with the globals zero-valued. *)
Definition boot (answers : nat -> option BLEAdvertising) : World :=
  mkWorld None None None None EmptyString false false false kInvalidConnId
    false [] answers 0.

Definition set_g_server (v : option BLEServer) (w : World) : World :=
  let '(mkWorld _ b c d e f g h i j k l m) := w in
  mkWorld v b c d e f g h i j k l m.
Definition set_g_characteristic (v : option BLECharacteristic) (w : World)
  : World :=
  let '(mkWorld a _ c d e f g h i j k l m) := w in
  mkWorld a v c d e f g h i j k l m.
Definition set_g_advertising (v : option BLEAdvertising) (w : World) : World :=
  let '(mkWorld a b _ d e f g h i j k l m) := w in
  mkWorld a b v d e f g h i j k l m.
Definition set_g_callback (v : CredentialsCallback) (w : World) : World :=
  let '(mkWorld a b c _ e f g h i j k l m) := w in
  mkWorld a b c v e f g h i j k l m.
Definition set_g_deviceId (v : ArduinoString) (w : World) : World :=
  let '(mkWorld a b c d _ f g h i j k l m) := w in
  mkWorld a b c d v f g h i j k l m.
Definition set_g_initialized (v : bool) (w : World) : World :=
  let '(mkWorld a b c d e _ g h i j k l m) := w in
  mkWorld a b c d e v g h i j k l m.
Definition set_g_sessionActive (v : bool) (w : World) : World :=
  let '(mkWorld a b c d e f _ h i j k l m) := w in
  mkWorld a b c d e f v h i j k l m.
Definition set_g_centralConnected (v : bool) (w : World) : World :=
  let '(mkWorld a b c d e f g _ i j k l m) := w in
  mkWorld a b c d e f g v i j k l m.
Definition set_g_connId (v : Z) (w : World) : World :=
  let '(mkWorld a b c d e f g h _ j k l m) := w in
  mkWorld a b c d e f g h v j k l m.
Definition set_g_restartAdvertising (v : bool) (w : World) : World :=
  let '(mkWorld a b c d e f g h i _ k l m) := w in
  mkWorld a b c d e f g h i v k l m.
Definition set_ble_calls (v : list BleCall) (w : World) : World :=
  let '(mkWorld a b c d e f g h i j _ l m) := w in
  mkWorld a b c d e f g h i j v l m.
Definition set_ble_getAdvertising_count (v : nat) (w : World) : World :=
  let '(mkWorld a b c d e f g h i j k l _) := w in
  mkWorld a b c d e f g h i j k l v.

(** ** The state monad of the module *)

Definition M (A : Type) : Type := World -> A * World.

Definition ret {A : Type} (a : A) : M A := fun w => (a, w).

Definition bind {A B : Type} (m : M A) (k : A -> M B) : M B :=
  fun w => let '(a, w') := m w in k a w'.

Notation "x <- m ;; k" := (bind m (fun x => k))
  (at level 61, m at next level, right associativity).
Notation "m ;; k" := (bind m (fun _ => k))
  (at level 61, right associativity).

Definition get {A : Type} (field : World -> A) : M A := fun w => (field w, w).
Definition modify (f : World -> World) : M unit := fun w => (tt, f w).
Definition when (b : bool) (m : M unit) : M unit := if b then m else ret tt.

(** The world a computation leaves. *)
Definition exec {A : Type} (m : M A) (w : World) : World := snd (m w).

Definition call (c : BleCall) : M unit :=
  modify (fun w => set_ble_calls (ble_calls w ++ [c]) w).

(** [BLEDevice::getAdvertising()]: the stack's next answer. *)
Definition BLEDevice_getAdvertising : M (option BLEAdvertising) :=
  fun w =>
    (ble_getAdvertising w (ble_getAdvertising_count w),
     set_ble_getAdvertising_count (S (ble_getAdvertising_count w)) w).

(** [g_characteristic->setValue(v)]. *)
Definition characteristic_setValue (v : std_string) : M unit :=
  modify (set_g_characteristic (Some (mkCharacteristic v)));;
  call (Characteristic_setValue v).

(** ** The module *)

Definition notify (message : ArduinoString) : M unit :=
  ch <- get g_characteristic;;
  match ch with
  | None => ret tt
  | Some _ =>
      characteristic_setValue (c_str (lit message));;
      connected <- get g_centralConnected;;
      when connected (call Characteristic_notify)
  end.

(** [ProvisioningCallbacks::onWrite]; the stack has stored the peer's bytes
    in [characteristic] before it calls the handler. *)
Definition onWrite (characteristic : BLECharacteristic) : M unit :=
  let value := m_value characteristic in
  let credentials := parseCredentials value in
  if negb (valid credentials) then
    notify ("error:" ++ error credentials)%string
  else
    notify "credenciales";;
    cb <- get g_callback;;
    match cb with
    | Some f =>
        call (Callback_call f (ssid credentials) (password credentials))
    | None => ret tt
    end.

(** [ServerCallbacks::onConnect]; [getConnId] is what
    [server->getConnId()] returns. *)
Definition onConnect (getConnId : Z) : M unit :=
  modify (set_g_centralConnected true);;
  modify (set_g_connId (uint16 getConnId)).

Definition onDisconnect : M unit :=
  modify (set_g_centralConnected false);;
  modify (set_g_connId kInvalidConnId);;
  active <- get g_sessionActive;;
  when active (modify (set_g_restartAdvertising true)).

Definition configureAdvertising : M unit :=
  adv <- get g_advertising;;
  match adv with
  | None => a <- BLEDevice_getAdvertising;; modify (set_g_advertising a)
  | Some _ => ret tt
  end;;
  adv <- get g_advertising;;
  match adv with
  | None => ret tt
  | Some _ =>
      name <- get g_deviceId;;
      call (Advertising_setAdvertisementData name kServiceUuid);;
      call (Advertising_setScanResponse false);;
      call (Advertising_setMinPreferred 0x06);;
      call (Advertising_setMaxPreferred 0x12)
  end.

Definition ensureInitialized (deviceId : ArduinoString) : M unit :=
  initialized <- get g_initialized;;
  if initialized then
    modify (set_g_deviceId deviceId);;
    configureAdvertising
  else
    modify (set_g_deviceId deviceId);;
    name <- get g_deviceId;;
    call (BLEDevice_init name);;
    call BLEDevice_createServer;;
    modify (set_g_server (Some TheServer));;
    call Server_setCallbacks;;
    call (Server_createService kServiceUuid);;
    call (Service_createCharacteristic kCharacteristicUuid);;
    modify (set_g_characteristic (Some (mkCharacteristic [])));;
    call Characteristic_addDescriptor;;
    call Characteristic_setCallbacks;;
    characteristic_setValue (lit "inactivo");;
    call Service_start;;
    a <- BLEDevice_getAdvertising;;
    modify (set_g_advertising a);;
    match a with
    | Some _ => call (Advertising_addServiceUUID kServiceUuid)
    | None => ret tt
    end;;
    configureAdvertising;;
    modify (set_g_initialized true).

Definition begin (deviceId : ArduinoString) (callback : CredentialsCallback)
  : M unit :=
  modify (set_g_callback callback);;
  ensureInitialized deviceId;;
  notify "inactivo".

Definition startBle : M bool :=
  initialized <- get g_initialized;;
  adv <- get g_advertising;;
  match initialized, adv with
  | true, Some _ =>
      configureAdvertising;;
      call Advertising_start;;
      notify "activo";;
      modify (set_g_sessionActive true);;
      modify (set_g_restartAdvertising false);;
      ret true
  | _, _ => ret false
  end.

Definition stopBle : M unit :=
  initialized <- get g_initialized;;
  if negb initialized then ret tt
  else
    adv <- get g_advertising;;
    match adv with
    | Some _ => call Advertising_stop
    | None => ret tt
    end;;
    connected <- get g_centralConnected;;
    server <- get g_server;;
    connId <- get g_connId;;
    match connected, server with
    | true, Some _ =>
        when (negb (connId =? kInvalidConnId)%Z) (call (Server_disconnect connId))
    | _, _ => ret tt
    end;;
    modify (set_g_sessionActive false);;
    modify (set_g_restartAdvertising false);;
    notify "inactivo".

Definition isActive : M bool := get g_sessionActive.

Definition notifyStatus (message : ArduinoString) : M unit := notify message.

Definition loop : M unit :=
  restart <- get g_restartAdvertising;;
  active <- get g_sessionActive;;
  adv <- get g_advertising;;
  match restart, active, adv with
  | true, true, Some _ =>
      modify (set_g_restartAdvertising false);;
      call Advertising_start
  | _, _, _ => ret tt
  end.

(** ** Runs of the module *)

(** What can happen to the session: a call of the application, or an event
    of the BLE stack. *)
Inductive Event :=
| Call_begin (deviceId : ArduinoString) (callback : CredentialsCallback)
| Call_startBle
| Call_stopBle
| Call_isActive
| Call_notifyStatus (message : ArduinoString)
| Call_loop
| Stack_onConnect (getConnId : Z)
| Stack_onDisconnect
| Stack_onWrite (payload : std_string).

(** One event. The stack can only call a handler once [ensureInitialized]
    has attached it (lines 159 and 167): before that a stack event changes
    nothing. A peer's write stores its bytes in the characteristic, then
    the stack calls [onWrite]. *)
Definition step (e : Event) (w : World) : World :=
  match e with
  | Call_begin deviceId callback => exec (begin deviceId callback) w
  | Call_startBle => exec startBle w
  | Call_stopBle => exec stopBle w
  | Call_isActive => exec isActive w
  | Call_notifyStatus message => exec (notifyStatus message) w
  | Call_loop => exec loop w
  | Stack_onConnect getConnId =>
      match g_server w with
      | Some _ => exec (onConnect getConnId) w
      | None => w
      end
  | Stack_onDisconnect =>
      match g_server w with
      | Some _ => exec onDisconnect w
      | None => w
      end
  | Stack_onWrite payload =>
      match g_characteristic w with
      | Some _ =>
          let characteristic := mkCharacteristic payload in
          exec (onWrite characteristic)
            (set_g_characteristic (Some characteristic) w)
      | None => w
      end
  end.

Definition run (es : list Event) (w : World) : World :=
  fold_left (fun w e => step e w) es w.

(** The states the session can be in: those a run from [boot] leaves, the
    events taken from [allowed]. *)
Inductive reachable_by (allowed : Event -> Prop) : World -> Prop :=
| reachable_boot :
    forall answers, reachable_by allowed (boot answers)
| reachable_step :
    forall e w,
      reachable_by allowed w -> allowed e -> reachable_by allowed (step e w).

Definition reachable : World -> Prop := reachable_by (fun _ => True).

(** The stack hands out a connection handle other than the constant the
    module keeps for "no connection". *)
Definition valid_handle (e : Event) : Prop :=
  match e with
  | Stack_onConnect getConnId => uint16 getConnId <> kInvalidConnId
  | _ => True
  end.

(** What holds of the globals in every reachable state. *)
Record session_inv (w : World) : Prop := mkInv {
  inv_initialized :
    g_initialized w = true ->
    g_server w <> None /\ g_characteristic w <> None;
  inv_active :
    g_sessionActive w = true ->
    g_initialized w = true /\ g_advertising w <> None;
  inv_restart :
    g_restartAdvertising w = true -> g_sessionActive w = true;
  inv_not_connected :
    g_centralConnected w = false -> g_connId w = kInvalidConnId;
  inv_connId_range : (0 <= g_connId w < 65536)%Z
}.

(** The calls of [configureAdvertising] on an advertising object (lines
    138-145), and of [notify] (lines 90-93). *)
Definition configure_calls (name : ArduinoString) : list BleCall :=
  [Advertising_setAdvertisementData name kServiceUuid;
   Advertising_setScanResponse false;
   Advertising_setMinPreferred 6;
   Advertising_setMaxPreferred 18].

Definition notify_calls (message : ArduinoString) (w : World) : list BleCall :=
  match g_characteristic w with
  | None => []
  | Some _ =>
      Characteristic_setValue (c_str (lit message))
      :: (if g_centralConnected w then [Characteristic_notify] else [])
  end.

(** The calls that set up the device, the server, the GATT service and its
    characteristic (lines 156-174). *)
Definition is_setup_call (c : BleCall) : bool :=
  match c with
  | BLEDevice_init _ | BLEDevice_createServer | Server_setCallbacks
  | Server_createService _ | Service_createCharacteristic _
  | Characteristic_addDescriptor | Characteristic_setCallbacks
  | Service_start | Advertising_addServiceUUID _ => true
  | _ => false
  end.

(** A stack that always has an advertising object to give, and sessions
    on it. *)
Definition always_advertising : nat -> option BLEAdvertising :=
  fun _ => Some TheAdvertising.

(** A stack that has no advertising object to give at its first two
    answers. *)
Definition late_advertising : nat -> option BLEAdvertising :=
  fun n => if Nat.ltb n 2 then None else Some TheAdvertising.

Definition idle_session : World :=
  run [Call_begin "dev-1" (Some 7)] (boot always_advertising).

Definition connected_session : World :=
  run [Call_begin "dev-1" (Some 7); Call_startBle; Stack_onConnect 5]
    (boot always_advertising).

(** What the module last asked of the advertising object: [true] after
    [start()], [false] after [stop()] and before either. *)
Definition advertising_requested (calls : list BleCall) : bool :=
  fold_left
    (fun on c =>
       match c with
       | Advertising_start => true
       | Advertising_stop => false
       | _ => on
       end)
    calls false.

(** How many of the calls made are of one kind. *)
Definition count_calls (kind : BleCall -> bool) (calls : list BleCall) : nat :=
  List.length (filter kind calls).

Definition is_createServer (c : BleCall) : bool :=
  match c with BLEDevice_createServer => true | _ => false end.
Definition is_createService (c : BleCall) : bool :=
  match c with Server_createService _ => true | _ => false end.
Definition is_createCharacteristic (c : BleCall) : bool :=
  match c with Service_createCharacteristic _ => true | _ => false end.

(** The globals of a world, without the stack's side. *)
Definition globals (w : World) :=
  (g_server w, g_characteristic w, g_advertising w, g_callback w,
   g_deviceId w,
   (g_initialized w, g_sessionActive w, g_centralConnected w, g_connId w,
    g_restartAdvertising w)).

(** The part of [parseCredentials] after the split (lines 72-83), as a
    function of the two parts. *)
Definition finish_parse (ssidPart passwordPart : std_string)
  : ParsedCredentials :=
  if empty (trim ssidPart) then parse_error "ssid"
  else parse_ok (c_str (trim ssidPart)) (c_str (trim passwordPart)).

Arguments parseCredentials : simpl never.

(** ** Proof tactics *)

(** A byte is not in a literal. *)
Ltac not_in := simpl; intuition discriminate.

(** Run the module's code on a world given by its fields. *)
Ltac unfold_module :=
  cbv beta iota zeta delta
    [step exec begin startBle stopBle isActive notifyStatus loop
     onConnect onDisconnect onWrite ensureInitialized configureAdvertising
     notify characteristic_setValue call BLEDevice_getAdvertising
     when modify get bind ret boot notify_calls configure_calls
     set_g_server set_g_characteristic set_g_advertising set_g_callback
     set_g_deviceId set_g_initialized set_g_sessionActive
     set_g_centralConnected set_g_connId set_g_restartAdvertising
     set_ble_calls set_ble_getAdvertising_count
     g_server g_characteristic g_advertising g_callback g_deviceId
     g_initialized g_sessionActive g_centralConnected g_connId
     g_restartAdvertising ble_calls ble_getAdvertising
     ble_getAdvertising_count fst snd negb] in *.

(** Split on what the code tests: a global, an answer of the stack, the
    outcome of the parse, the comparison of the handle. *)
Ltac world_cases :=
  unfold_module;
  repeat
    (match goal with
     | |- context [match ?x with _ => _ end] => is_var x; destruct x
     | |- context [match ?f ?n with _ => _ end] =>
         is_var f; destruct (f n) eqn:?
     | |- context [match valid ?p with _ => _ end] =>
         destruct (valid p) eqn:?
     | |- context [match (?a =? ?b)%Z with _ => _ end] =>
         destruct (Z.eqb_spec a b)
     end;
     unfold_module).

Ltac list_eq := repeat (rewrite <- app_assoc; cbn [app]); try reflexivity.

(** * Properties of the parser *)

(** ** Strings *)

Lemma find_None_iff (s : std_string) (c : ascii) :
  find s c = None <-> ~ In c s.
Proof.
  induction s as [|x rest IH]; simpl.
  - tauto.
  - destruct (Ascii.eqb_spec x c) as [->|Hne].
    + split; [discriminate | intros H; exfalso; apply H; now left].
    + destruct (find rest c) eqn:Hf.
      * split; [discriminate|].
        intros H. exfalso. destruct IH as [_ IH].
        assert (Hn : ~ In c rest) by tauto.
        specialize (IH Hn). discriminate.
      * split; [|reflexivity].
        intros _ [H|H]; [congruence | tauto].
Qed.

Lemma find_first (A B : std_string) (c : ascii) :
  ~ In c A -> find (A ++ c :: B) c = Some (List.length A).
Proof.
  induction A as [|x A IH]; simpl; intros Hn.
  - now rewrite Ascii.eqb_refl.
  - destruct (Ascii.eqb_spec x c) as [->|Hne]; [tauto|].
    rewrite IH by tauto. reflexivity.
Qed.

Lemma first_occurrence (c : ascii) (s : std_string) :
  In c s -> exists A B, s = A ++ c :: B /\ ~ In c A.
Proof.
  induction s as [|x s IH]; simpl; [tauto|].
  intros H. destruct (Ascii.eqb_spec x c) as [->|Hne].
  - exists [], s. split; [reflexivity | simpl; tauto].
  - destruct H as [H|H]; [congruence|].
    destruct (IH H) as (A & B & -> & HA).
    exists (x :: A), B. split; [reflexivity|].
    simpl. intros [E|E]; [congruence | tauto].
Qed.

Lemma erase_remove_app (A B : std_string) (c : ascii) :
  erase_remove (A ++ B) c = erase_remove A c ++ erase_remove B c.
Proof. apply filter_app. Qed.

Lemma erase_remove_cons_ne (x c : ascii) (B : std_string) :
  x <> c -> erase_remove (x :: B) c = x :: erase_remove B c.
Proof.
  intros Hne. unfold erase_remove. simpl.
  destruct (Ascii.eqb_spec x c); [congruence | reflexivity].
Qed.

Lemma erase_remove_In (x c : ascii) (s : std_string) :
  In x (erase_remove s c) <-> In x s /\ x <> c.
Proof.
  unfold erase_remove. rewrite filter_In.
  destruct (Ascii.eqb_spec x c); simpl; intuition congruence.
Qed.

Lemma erase_remove_absent (s : std_string) (c : ascii) :
  ~ In c s -> erase_remove s c = s.
Proof.
  induction s as [|x s IH]; simpl; intros Hn; [reflexivity|].
  destruct (Ascii.eqb_spec x c) as [->|Hne]; simpl; [tauto|].
  f_equal. apply IH. tauto.
Qed.

Lemma erase_remove_rev (s : std_string) (c : ascii) :
  erase_remove (rev s) c = rev (erase_remove s c).
Proof.
  induction s as [|x s IH]; simpl; [reflexivity|].
  rewrite erase_remove_app, IH. simpl.
  destruct (Ascii.eqb x c); simpl; [now rewrite app_nil_r | reflexivity].
Qed.

Lemma firstn_length_app (A B : std_string) :
  firstn (List.length A) (A ++ B) = A.
Proof. induction A as [|x A IH]; simpl; [now destruct B | now rewrite IH]. Qed.

Lemma skipn_length_app (A B : std_string) (c : ascii) :
  skipn (List.length A + 1) (A ++ c :: B) = B.
Proof. induction A as [|x A IH]; simpl; [reflexivity | exact IH]. Qed.

Lemma c_str_no_NUL (s : std_string) : ~ In NUL s -> c_str s = s.
Proof.
  induction s as [|x s IH]; simpl; intros Hn; [reflexivity|].
  destruct (Ascii.eqb_spec x NUL) as [->|Hne]; [tauto|].
  f_equal. apply IH. tauto.
Qed.

(** ** [trim] *)

Lemma trim_back_loop_snoc (fuel : nat) (text : std_string) (c : ascii) :
  trim_back_loop (S fuel) (text ++ [c]) =
  if isWhitespace c then trim_back_loop fuel text else text ++ [c].
Proof.
  simpl. unfold back, pop_back.
  rewrite last_last, removelast_last.
  now destruct text.
Qed.

Lemma trim_back_snoc (text : std_string) (c : ascii) :
  trim_back (text ++ [c]) =
  if isWhitespace c then trim_back text else text ++ [c].
Proof.
  unfold trim_back. rewrite length_app. simpl.
  rewrite Nat.add_1_r. apply trim_back_loop_snoc.
Qed.

(** The loop needs no more than [length text] iterations: with more fuel
    it returns the same string. *)
Lemma trim_back_loop_enough (text : std_string) :
  forall fuel, List.length text <= fuel ->
               trim_back_loop fuel text = trim_back text.
Proof.
  induction text as [|c text IH] using rev_ind; intros fuel Hlen.
  - now destruct fuel.
  - rewrite length_app in Hlen. simpl in Hlen.
    destruct fuel as [|fuel]; [lia|].
    rewrite trim_back_loop_snoc, trim_back_snoc.
    destruct (isWhitespace c); [apply IH; lia | reflexivity].
Qed.

(** When the loop stops, its condition is false. *)
Lemma trim_back_loop_done (text : std_string) :
  negb (empty (trim_back text)) && isWhitespace (back (trim_back text))
  = false.
Proof.
  induction text as [|c text IH] using rev_ind; [reflexivity|].
  rewrite trim_back_snoc. destruct (isWhitespace c) eqn:Hc; [exact IH|].
  unfold back. rewrite last_last, Hc. apply andb_false_r.
Qed.

Lemma trim_back_rev (text : std_string) :
  trim_back text = rev (trim_front (rev text)).
Proof.
  induction text as [|c text IH] using rev_ind; [reflexivity|].
  rewrite trim_back_snoc, rev_app_distr. simpl.
  destruct (isWhitespace c); [exact IH|].
  simpl. now rewrite rev_involutive.
Qed.

Lemma trim_front_In (x : ascii) (text : std_string) :
  In x (trim_front text) -> In x text.
Proof.
  induction text as [|c text IH]; simpl; [tauto|].
  destruct (isWhitespace c); simpl; tauto.
Qed.

Lemma trim_In (x : ascii) (text : std_string) :
  In x (trim text) -> In x text.
Proof.
  unfold trim. rewrite trim_back_rev, <- in_rev.
  intros H. apply trim_front_In in H. rewrite <- in_rev in H.
  now apply trim_front_In.
Qed.

Lemma isWhitespace_CR : isWhitespace CR = true.
Proof. reflexivity. Qed.

Lemma trim_front_erase_CR (text : std_string) :
  trim_front (erase_remove text CR) = erase_remove (trim_front text) CR.
Proof.
  induction text as [|c text IH]; [reflexivity|].
  destruct (Ascii.eqb_spec c CR) as [->|Hne].
  - simpl. exact IH.
  - rewrite erase_remove_cons_ne by assumption. simpl.
    destruct (isWhitespace c); [exact IH|].
    now rewrite erase_remove_cons_ne.
Qed.

(** Removing the carriage returns before trimming, as the parser does, or
    after: the same string. *)
Lemma trim_erase_CR (text : std_string) :
  trim (erase_remove text CR) = erase_remove (trim text) CR.
Proof.
  unfold trim.
  rewrite !trim_back_rev, trim_front_erase_CR.
  rewrite <- erase_remove_rev, trim_front_erase_CR, erase_remove_rev.
  reflexivity.
Qed.

Lemma trim_front_nil_iff (text : std_string) :
  trim_front text = [] <-> forallb isWhitespace text = true.
Proof.
  induction text as [|c text IH]; simpl; [tauto|].
  destruct (isWhitespace c); simpl; [exact IH|].
  split; discriminate.
Qed.

Lemma trim_front_head (text : std_string) (c : ascii) (rest : std_string) :
  trim_front text = c :: rest -> isWhitespace c = false.
Proof.
  induction text as [|x text IH]; simpl; [discriminate|].
  destruct (isWhitespace x) eqn:Hx; [exact IH|].
  intros E. injection E as -> _. exact Hx.
Qed.

Lemma trim_back_keeps_head (c : ascii) (text : std_string) :
  isWhitespace c = false -> exists rest, trim_back (c :: text) = c :: rest.
Proof.
  intros Hc. induction text as [|x text IH] using rev_ind.
  - exists []. change [c] with ([] ++ [c]).
    rewrite trim_back_snoc, Hc. reflexivity.
  - change (c :: text ++ [x]) with ((c :: text) ++ [x]).
    rewrite trim_back_snoc. destruct (isWhitespace x); [exact IH|].
    now exists (text ++ [x]).
Qed.

(** [trim] leaves nothing exactly when the text is all whitespace. *)
Lemma trim_nil_iff (text : std_string) :
  trim text = [] <-> forallb isWhitespace text = true.
Proof.
  rewrite <- trim_front_nil_iff. unfold trim.
  destruct (trim_front text) as [|c rest] eqn:E.
  - split; reflexivity.
  - destruct (trim_back_keeps_head c rest (trim_front_head _ _ _ E))
      as [rest' ->].
    split; discriminate.
Qed.

Lemma forallb_isWhitespace_erase_CR (text : std_string) :
  forallb isWhitespace (erase_remove text CR) = forallb isWhitespace text.
Proof.
  induction text as [|c text IH]; [reflexivity|].
  destruct (Ascii.eqb_spec c CR) as [->|Hne].
  - simpl. exact IH.
  - rewrite erase_remove_cons_ne by assumption. simpl. now rewrite IH.
Qed.

Lemma trim_erase_CR_nil_iff (text : std_string) :
  trim (erase_remove text CR) = [] <-> trim text = [].
Proof.
  now rewrite !trim_nil_iff, forallb_isWhitespace_erase_CR.
Qed.

Lemma empty_true_iff (s : std_string) : empty s = true <-> s = [].
Proof. destruct s; simpl; split; congruence. Qed.

(** ** Where the parser splits *)

Lemma parse_after_split (raw : std_string) (X Y : std_string) (c : ascii) :
  raw <> [] ->
  erase_remove raw CR = X ++ c :: Y ->
  find (erase_remove raw CR) LF = Some (List.length X) \/
  (find (erase_remove raw CR) LF = None /\
   find (erase_remove raw CR) PIPE = Some (List.length X)) ->
  parseCredentials raw = finish_parse X Y.
Proof.
  intros Hraw Hpayload Hsep.
  unfold parseCredentials, finish_parse.
  destruct raw as [|r raw]; [congruence|].
  cbn [empty]. cbv zeta.
  destruct Hsep as [Hsep|[Hnone Hsep]].
  - rewrite Hsep, Hpayload, firstn_length_app, skipn_length_app.
    reflexivity.
  - rewrite Hnone, Hsep, Hpayload, firstn_length_app, skipn_length_app.
    reflexivity.
Qed.

(** A payload that holds a newline is split at its first newline. *)
Lemma parse_newline_split (A B : std_string) :
  ~ In LF A ->
  parseCredentials (A ++ LF :: B)
  = finish_parse (erase_remove A CR) (erase_remove B CR).
Proof.
  intros HA.
  assert (Hpayload : erase_remove (A ++ LF :: B) CR
                     = erase_remove A CR ++ LF :: erase_remove B CR).
  { rewrite erase_remove_app, erase_remove_cons_ne by discriminate.
    reflexivity. }
  apply parse_after_split with (c := LF).
  - now destruct A.
  - exact Hpayload.
  - left. rewrite Hpayload, find_first; [reflexivity|].
    rewrite erase_remove_In. tauto.
Qed.

(** A payload with no newline is split at its first pipe. *)
Lemma parse_pipe_split (A B : std_string) :
  ~ In LF A -> ~ In LF B -> ~ In PIPE A ->
  parseCredentials (A ++ PIPE :: B)
  = finish_parse (erase_remove A CR) (erase_remove B CR).
Proof.
  intros HA HB HP.
  assert (Hpayload : erase_remove (A ++ PIPE :: B) CR
                     = erase_remove A CR ++ PIPE :: erase_remove B CR).
  { rewrite erase_remove_app, erase_remove_cons_ne by discriminate.
    reflexivity. }
  apply parse_after_split with (c := PIPE).
  - now destruct A.
  - exact Hpayload.
  - right. rewrite Hpayload. split.
    + apply find_None_iff.
      rewrite in_app_iff. simpl. rewrite !erase_remove_In.
      intros [H|[H|H]]; [tauto | discriminate | tauto].
    + rewrite find_first; [reflexivity|].
      rewrite erase_remove_In. tauto.
Qed.

Lemma finish_parse_ok (X Y : std_string) :
  trim X <> [] ->
  finish_parse X Y = parse_ok (c_str (trim X)) (c_str (trim Y)).
Proof.
  intros H. unfold finish_parse.
  destruct (trim X); [congruence | reflexivity].
Qed.

Lemma finish_parse_missing_ssid (X Y : std_string) :
  trim X = [] -> finish_parse X Y = parse_error "ssid".
Proof. intros H. unfold finish_parse. now rewrite H. Qed.

(** A NUL byte is no whitespace, and the [String] built from [c_str()]
    ends before it: an ssid part that starts with NUL passes the check of
    line 75 and is reported as an empty ssid. *)
Example parse_NUL_ssid :
  parseCredentials (NUL :: lit "home" ++ LF :: lit "pw")
  = parse_ok [] (lit "pw").
Proof. reflexivity. Qed.

(** * The claims about the parser *)

(** C1 (as amended). For every payload [A ++ "\n" ++ B] whose [A] holds no
    newline (the newline shown is the first one), with no NUL byte in [A]
    and [B], and [trim A] not empty: the parse succeeds, the ssid is [A]
    with its carriage returns removed and then trimmed, and the password is
    [B] treated alike (it may be empty). When the carriage returns of [A]
    and [B] are all in the whitespace that [trim] removes, these are
    [trim A] and [trim B]. *)
Theorem C1_newline_payload (A B : std_string) :
  ~ In LF A -> ~ In NUL A -> ~ In NUL B ->
  trim A <> [] ->
  parseCredentials (A ++ LF :: B)
  = parse_ok (trim (erase_remove A CR)) (trim (erase_remove B CR))
  /\ (~ In CR (trim A) -> ~ In CR (trim B) ->
      parseCredentials (A ++ LF :: B) = parse_ok (trim A) (trim B)).
Proof.
  intros HLF HA HB Hssid.
  assert (Hparse : parseCredentials (A ++ LF :: B)
                   = parse_ok (trim (erase_remove A CR))
                              (trim (erase_remove B CR))).
  { rewrite parse_newline_split by assumption.
    rewrite finish_parse_ok by (now rewrite trim_erase_CR_nil_iff).
    rewrite !c_str_no_NUL; [reflexivity | |].
    - intros H. apply trim_In, erase_remove_In in H. tauto.
    - intros H. apply trim_In, erase_remove_In in H. tauto. }
  split; [exact Hparse|].
  intros HcrA HcrB.
  rewrite Hparse, !trim_erase_CR, !erase_remove_absent by assumption.
  reflexivity.
Qed.

(** C1 at a payload with CR LF line ends. *)
Lemma C1_newline_payload_witness :
  parseCredentials (lit " home" ++ CR :: LF :: lit "secret" ++ [CR; LF])
  = parse_ok (lit "home") (lit "secret").
Proof.
  change (parseCredentials ((lit " home" ++ [CR]) ++ LF :: lit "secret" ++ [CR; LF])
          = parse_ok (trim (lit " home" ++ [CR]))
                     (trim (lit "secret" ++ [CR; LF]))).
  apply (C1_newline_payload (lit " home" ++ [CR]) (lit "secret" ++ [CR; LF]));
    not_in.
Defined.

(** C1, as stated, fails: a carriage return inside [A] is removed from the
    ssid, which [trim] would keep. *)
Lemma C1_counterexample :
  trim (lit "a" ++ CR :: lit "b") = lit "a" ++ CR :: lit "b" /\
  parseCredentials ((lit "a" ++ CR :: lit "b") ++ LF :: lit "pw")
  = parse_ok (lit "ab") (lit "pw") /\
  parseCredentials ((lit "a" ++ CR :: lit "b") ++ LF :: lit "pw")
  <> parse_ok (trim (lit "a" ++ CR :: lit "b")) (trim (lit "pw")).
Proof.
  split; [reflexivity|]. split; [reflexivity|].
  vm_compute. discriminate.
Qed.

(** C2. The separator is the first newline, and the first pipe only when
    the payload holds no newline: "home\nfirst|second" gives the ssid
    "home" and the password "first|second", "home|hunter2" gives "home" and
    "hunter2"; in general a payload is split at its first newline whatever
    pipes it holds, and at its first pipe when it holds no newline. *)
Theorem C2_separator_selection :
  parseCredentials (lit "home" ++ LF :: lit "first|second")
  = parse_ok (lit "home") (lit "first|second") /\
  parseCredentials (lit "home|hunter2")
  = parse_ok (lit "home") (lit "hunter2") /\
  (forall A B : std_string,
      ~ In LF A ->
      parseCredentials (A ++ LF :: B)
      = finish_parse (erase_remove A CR) (erase_remove B CR)) /\
  (forall A B : std_string,
      ~ In LF A -> ~ In LF B -> ~ In PIPE A ->
      parseCredentials (A ++ PIPE :: B)
      = finish_parse (erase_remove A CR) (erase_remove B CR)).
Proof.
  split; [reflexivity|]. split; [reflexivity|].
  split; [exact parse_newline_split | exact parse_pipe_split].
Qed.

(** C2 at a payload with a pipe on both sides of its newline, and at one
    with two pipes and no newline. *)
Lemma C2_separator_selection_witness :
  parseCredentials (lit "a|b" ++ LF :: lit "c|d")
  = parse_ok (lit "a|b") (lit "c|d") /\
  parseCredentials (lit "a b" ++ PIPE :: lit "c|d")
  = parse_ok (lit "a b") (lit "c|d").
Proof.
  destruct C2_separator_selection as (_ & _ & Hnl & Hpipe).
  split.
  - rewrite (Hnl (lit "a|b") (lit "c|d")) by not_in. reflexivity.
  - rewrite (Hpipe (lit "a b") (lit "c|d")) by not_in. reflexivity.
Defined.

Lemma parse_outcome (raw : std_string) :
  parseCredentials raw = parse_error "vacio" \/
  parseCredentials raw = parse_error "formato" \/
  parseCredentials raw = parse_error "ssid" \/
  (valid (parseCredentials raw) = true /\
   error (parseCredentials raw) = EmptyString).
Proof.
  unfold parseCredentials.
  destruct raw as [|r raw]; [now left|].
  cbn [empty]. cbv zeta.
  destruct (find (erase_remove (r :: raw) CR) LF) as [i|].
  - destruct (trim (firstn i (erase_remove (r :: raw) CR)));
      cbn [empty]; [now right; right; left | now right; right; right].
  - destruct (find (erase_remove (r :: raw) CR) PIPE) as [i|];
      [|now right; left].
    destruct (trim (firstn i (erase_remove (r :: raw) CR)));
      cbn [empty]; [now right; right; left | now right; right; right].
Qed.

Lemma parse_no_separator (raw : std_string) :
  raw <> [] -> ~ In LF raw -> ~ In PIPE raw ->
  parseCredentials raw = parse_error "formato".
Proof.
  intros Hraw HLF HP. unfold parseCredentials.
  destruct raw as [|r raw]; [congruence|].
  cbn [empty]. cbv zeta.
  assert (H1 : find (erase_remove (r :: raw) CR) LF = None).
  { apply find_None_iff. rewrite erase_remove_In. tauto. }
  assert (H2 : find (erase_remove (r :: raw) CR) PIPE = None).
  { apply find_None_iff. rewrite erase_remove_In. tauto. }
  now rewrite H1, H2.
Qed.

Lemma parse_blank_before_newline (A B : std_string) :
  trim A = [] -> parseCredentials (A ++ LF :: B) = parse_error "ssid".
Proof.
  intros HA. destruct (in_dec ascii_dec LF A) as [Hin|Hout].
  - destruct (first_occurrence LF A Hin) as (A1 & A2 & -> & HA1).
    rewrite <- app_assoc. cbn [app].
    rewrite parse_newline_split by assumption.
    apply finish_parse_missing_ssid.
    rewrite trim_erase_CR_nil_iff, trim_nil_iff.
    rewrite trim_nil_iff, forallb_app in HA.
    now apply andb_true_iff in HA.
  - rewrite parse_newline_split by assumption.
    apply finish_parse_missing_ssid. now rewrite trim_erase_CR_nil_iff.
Qed.

Lemma parse_blank_before_pipe (A B : std_string) :
  trim A = [] -> ~ In LF B ->
  parseCredentials (A ++ PIPE :: B) = parse_error "ssid".
Proof.
  intros HA HB. destruct (in_dec ascii_dec LF A) as [Hin|Hout].
  - destruct (first_occurrence LF A Hin) as (A1 & A2 & -> & HA1).
    rewrite <- app_assoc. cbn [app].
    rewrite parse_newline_split by assumption.
    apply finish_parse_missing_ssid.
    rewrite trim_erase_CR_nil_iff, trim_nil_iff.
    rewrite trim_nil_iff, forallb_app in HA.
    now apply andb_true_iff in HA.
  - rewrite parse_pipe_split; try assumption.
    + apply finish_parse_missing_ssid. now rewrite trim_erase_CR_nil_iff.
    + intros Hin. rewrite trim_nil_iff, forallb_forall in HA.
      specialize (HA PIPE Hin). discriminate.
Qed.

(** C3. A parse fails with exactly one of three errors: the empty input
    with "vacio"; an input that is not empty and holds no newline and no
    pipe with "formato"; an input whose part before the separator trims to
    nothing with "ssid", as "  \n secret" does. A parse that fails reports
    one of these three and no ssid or password; one that succeeds reports
    no error. *)
Theorem C3_parse_errors :
  parseCredentials [] = parse_error "vacio" /\
  (forall raw : std_string,
      raw <> [] -> ~ In LF raw -> ~ In PIPE raw ->
      parseCredentials raw = parse_error "formato") /\
  (forall A B : std_string,
      trim A = [] -> parseCredentials (A ++ LF :: B) = parse_error "ssid") /\
  (forall A B : std_string,
      trim A = [] -> ~ In LF B ->
      parseCredentials (A ++ PIPE :: B) = parse_error "ssid") /\
  parseCredentials ([SPACE; SPACE; LF; SPACE] ++ lit "secret")
  = parse_error "ssid" /\
  (forall raw : std_string,
      parseCredentials raw = parse_error "vacio" \/
      parseCredentials raw = parse_error "formato" \/
      parseCredentials raw = parse_error "ssid" \/
      (valid (parseCredentials raw) = true /\
       error (parseCredentials raw) = EmptyString)).
Proof.
  split; [reflexivity|].
  split; [exact parse_no_separator|].
  split; [exact parse_blank_before_newline|].
  split; [exact parse_blank_before_pipe|].
  split; [reflexivity | exact parse_outcome].
Qed.

(** C3 at payloads with no separator and with a blank ssid part. *)
Lemma C3_parse_errors_witness :
  parseCredentials (lit "home hunter2") = parse_error "formato" /\
  parseCredentials [CR] = parse_error "formato" /\
  parseCredentials ([TAB; LF; SPACE] ++ LF :: lit "pw") = parse_error "ssid" /\
  parseCredentials ([SPACE; CR] ++ PIPE :: lit "pw") = parse_error "ssid".
Proof.
  destruct C3_parse_errors as (_ & Hformat & Hnl & Hpipe & _).
  split; [apply Hformat; not_in|].
  split; [apply Hformat; not_in|].
  split; [apply Hnl; reflexivity|].
  apply Hpipe; [reflexivity | not_in].
Defined.

(** * Properties of the session *)

Lemma uint16_range (z : Z) : (0 <= uint16 z < 65536)%Z.
Proof. unfold uint16. apply Z.mod_pos_bound. lia. Qed.

Lemma kInvalidConnId_range : (0 <= kInvalidConnId < 65536)%Z.
Proof. unfold kInvalidConnId. lia. Qed.

Create HintDb session.
#[local] Hint Resolve uint16_range kInvalidConnId_range : session.

(** ** The invariant *)

Lemma session_inv_boot (answers : nat -> option BLEAdvertising) :
  session_inv (boot answers).
Proof.
  constructor; unfold_module; try discriminate; try reflexivity.
  auto with session.
Qed.

Lemma session_inv_step (e : Event) (w : World) :
  session_inv w -> session_inv (step e w).
Proof.
  intros [H1 H2 H3 H4 H5].
  destruct w as [sv ch adv cb id ini act con cid rst calls ans cnt].
  destruct e; world_cases;
    constructor; unfold_module; intros;
    repeat match goal with
           | H : ?a = ?a -> _ |- _ => specialize (H eq_refl)
           end;
    auto with session;
    try (intuition (discriminate || congruence)).
Qed.

Section Reachability.

Variable allowed : Event -> Prop.

Lemma reachable_session_inv (w : World) :
  reachable_by allowed w -> session_inv w.
Proof.
  induction 1 as [answers | e w _ IH _].
  - apply session_inv_boot.
  - now apply session_inv_step.
Qed.

Lemma reachable_by_weaken (Q : Event -> Prop) (w : World) :
  (forall e, allowed e -> Q e) -> reachable_by allowed w -> reachable_by Q w.
Proof.
  intros HPQ. induction 1 as [answers | e w _ IH He].
  - apply reachable_boot.
  - apply reachable_step; auto.
Qed.

Lemma reachable_run (es : list Event) (w : World) :
  reachable_by allowed w -> Forall allowed es ->
  reachable_by allowed (run es w).
Proof.
  intros Hw Hes. revert w Hw.
  induction Hes as [|e es He _ IH]; intros w Hw; [exact Hw|].
  apply IH. now apply reachable_step.
Qed.

End Reachability.

Lemma run_snoc (es : list Event) (e : Event) (w : World) :
  run (es ++ [e]) w = step e (run es w).
Proof. unfold run. now rewrite fold_left_app. Qed.

(** ** What one call does *)

Lemma notify_spec (message : ArduinoString) (w : World) :
  notify message w =
  (tt,
   match g_characteristic w with
   | None => w
   | Some _ =>
       set_ble_calls (ble_calls w ++ notify_calls message w)
         (set_g_characteristic
            (Some (mkCharacteristic (c_str (lit message)))) w)
   end).
Proof.
  destruct w as [sv ch adv cb id ini act con cid rst calls ans cnt].
  world_cases; list_eq.
Qed.

Lemma loop_idle (w : World) :
  g_restartAdvertising w = false -> step Call_loop w = w.
Proof.
  destruct w as [sv ch adv cb id ini act con cid rst calls ans cnt].
  unfold_module. intros ->. reflexivity.
Qed.

Lemma restart_stays_clear (e : Event) (w : World) :
  e <> Stack_onDisconnect ->
  g_restartAdvertising w = false ->
  g_restartAdvertising (step e w) = false.
Proof.
  intros He.
  destruct w as [sv ch adv cb id ini act con cid rst calls ans cnt].
  destruct e; try congruence; world_cases; intros; congruence.
Qed.

Lemma restart_stays_clear_run (es : list Event) (w : World) :
  Forall (fun e => e <> Stack_onDisconnect) es ->
  g_restartAdvertising w = false ->
  g_restartAdvertising (run es w) = false.
Proof.
  intros Hes. revert w.
  induction Hes as [|e es He _ IH]; intros w Hw; [exact Hw|].
  apply IH. now apply restart_stays_clear.
Qed.

Lemma connected_handle_step (e : Event) (w : World) :
  valid_handle e ->
  (g_centralConnected w = true -> g_connId w <> kInvalidConnId) ->
  g_centralConnected (step e w) = true ->
  g_connId (step e w) <> kInvalidConnId.
Proof.
  destruct w as [sv ch adv cb id ini act con cid rst calls ans cnt].
  destruct e; world_cases; unfold valid_handle; intros;
    try discriminate; auto.
Qed.

Lemma connected_session_reachable :
  reachable_by valid_handle connected_session.
Proof.
  apply reachable_run; [apply reachable_boot|].
  repeat (apply Forall_cons; [|]); try apply Forall_nil; try exact I.
  vm_compute. discriminate.
Qed.

Lemma idle_session_reachable : reachable_by valid_handle idle_session.
Proof.
  apply reachable_run; [apply reachable_boot|].
  repeat (apply Forall_cons; [|]); try apply Forall_nil; exact I.
Qed.

Lemma reachable_any (w : World) : reachable_by valid_handle w -> reachable w.
Proof. apply reachable_by_weaken. intros; exact I. Qed.

(** * The claims about the session *)

(** C4. A disconnect while the session is active sets the pending-restart
    flag; the next [loop()] then starts advertising once and clears the
    flag; after that, whatever happens short of another disconnect, the
    flag stays clear and a [loop()] call changes nothing. *)
Theorem C4_disconnect_restart (w : World) :
  reachable w ->
  g_sessionActive w = true ->
  let w1 := step Stack_onDisconnect w in
  let w2 := step Call_loop w1 in
  g_restartAdvertising w1 = true /\
  ble_calls w2 = ble_calls w1 ++ [Advertising_start] /\
  g_restartAdvertising w2 = false /\
  (forall es : list Event,
      Forall (fun e => e <> Stack_onDisconnect) es ->
      g_restartAdvertising (run es w2) = false /\
      step Call_loop (run es w2) = run es w2).
Proof.
  intros Hreach Hactive.
  destruct (reachable_session_inv _ _ Hreach) as [H1 H2 _ _ _].
  destruct (H2 Hactive) as [Hini Hadv].
  destruct (H1 Hini) as [Hsv _].
  assert (Hclear : g_restartAdvertising
                     (step Call_loop (step Stack_onDisconnect w)) = false).
  { clear Hreach H1 H2.
    destruct w as [sv ch adv cb id ini act con cid rst calls ans cnt].
    unfold_module. subst.
    destruct sv; [|congruence]. destruct adv; [|congruence]. reflexivity. }
  cbv zeta. repeat split.
  - clear Hreach H1 H2 Hclear.
    destruct w as [sv ch adv cb id ini act con cid rst calls ans cnt].
    unfold_module. subst. destruct sv; [reflexivity | congruence].
  - clear Hreach H1 H2 Hclear.
    destruct w as [sv ch adv cb id ini act con cid rst calls ans cnt].
    unfold_module. subst.
    destruct sv; [|congruence]. destruct adv; [|congruence]. reflexivity.
  - exact Hclear.
  - now apply restart_stays_clear_run.
  - apply loop_idle. now apply restart_stays_clear_run.
Qed.

(** C4 at an active session with a central connected. *)
Lemma C4_disconnect_restart_witness :
  g_sessionActive connected_session = true /\
  g_restartAdvertising (step Stack_onDisconnect connected_session) = true /\
  g_restartAdvertising
    (step Call_loop (step Stack_onDisconnect connected_session)) = false /\
  step Call_loop
    (run [Call_loop; Stack_onConnect 6; Call_notifyStatus "wifi"]
       (step Call_loop (step Stack_onDisconnect connected_session)))
  = run [Call_loop; Stack_onConnect 6; Call_notifyStatus "wifi"]
      (step Call_loop (step Stack_onDisconnect connected_session)).
Proof.
  destruct (C4_disconnect_restart connected_session
              (reachable_any _ connected_session_reachable) eq_refl)
    as (Hset & _ & Hclear & Hlater).
  split; [reflexivity|]. split; [exact Hset|]. split; [exact Hclear|].
  apply Hlater.
  repeat (apply Forall_cons; [discriminate|]). apply Forall_nil.
Defined.

(** C5. After a [startBle()] that returns true, [isActive()] returns true;
    after a [stopBle()] on an initialized session, [isActive()] returns
    false, whether or not a central was connected. *)
Theorem C5_isActive_after_start_stop (w : World) :
  (fst (startBle w) = true -> fst (isActive (exec startBle w)) = true) /\
  (g_initialized w = true -> fst (isActive (exec stopBle w)) = false).
Proof.
  destruct w as [sv ch adv cb id ini act con cid rst calls ans cnt].
  split; world_cases; intros; congruence.
Qed.

(** C5 at an idle session, and at an active one with a central connected. *)
Lemma C5_isActive_after_start_stop_witness :
  fst (startBle idle_session) = true /\
  fst (isActive (exec startBle idle_session)) = true /\
  g_centralConnected connected_session = true /\
  fst (isActive connected_session) = true /\
  fst (isActive (exec stopBle connected_session)) = false /\
  fst (isActive (exec stopBle idle_session)) = false.
Proof.
  split; [reflexivity|].
  split; [exact (proj1 (C5_isActive_after_start_stop idle_session) eq_refl)|].
  split; [reflexivity|]. split; [reflexivity|].
  split.
  - exact (proj2 (C5_isActive_after_start_stop connected_session) eq_refl).
  - exact (proj2 (C5_isActive_after_start_stop idle_session) eq_refl).
Defined.

(** C9. [startBle()] on a session that is not initialized, or that has no
    advertising object, returns false and changes nothing: no global, no
    call to the stack (no status is sent, advertising is not started). It
    returns true only on an initialized session with an advertising
    object. *)
Theorem C9_startBle_unavailable (w : World) :
  (g_initialized w = false \/ g_advertising w = None ->
   startBle w = (false, w)) /\
  (fst (startBle w) = true ->
   g_initialized w = true /\ g_advertising w <> None).
Proof.
  destruct w as [sv ch adv cb id ini act con cid rst calls ans cnt].
  split; world_cases; intros; try reflexivity;
    intuition (discriminate || congruence).
Qed.

(** C9 before [begin], and after a [begin] to which the stack gave no
    advertising object. *)
Lemma C9_startBle_unavailable_witness :
  startBle (boot always_advertising) = (false, boot always_advertising) /\
  startBle (run [Call_begin "dev-1" None] (boot (fun _ => None)))
  = (false, run [Call_begin "dev-1" None] (boot (fun _ => None))).
Proof.
  split.
  - apply (proj1 (C9_startBle_unavailable (boot always_advertising))).
    left. reflexivity.
  - apply (proj1 (C9_startBle_unavailable
                    (run [Call_begin "dev-1" None] (boot (fun _ => None))))).
    right. reflexivity.
Defined.

(** C10. When the written payload parses and no callback is registered,
    [onWrite] does what [notify("credenciales")] does and returns: the
    status is stored (and pushed to a connected central), and no callback
    is called. *)
Theorem C10_write_without_callback
  (characteristic : BLECharacteristic) (w : World) :
  g_callback w = None ->
  valid (parseCredentials (m_value characteristic)) = true ->
  onWrite characteristic w = notify "credenciales" w /\
  ble_calls (exec (onWrite characteristic) w)
  = ble_calls w ++ notify_calls "credenciales" w /\
  (forall f s p, ~ In (Callback_call f s p) (notify_calls "credenciales" w)) /\
  (g_characteristic w <> None ->
   g_characteristic (exec (onWrite characteristic) w)
   = Some (mkCharacteristic (lit "credenciales"))).
Proof.
  intros Hcb Hvalid.
  assert (Hsame : onWrite characteristic w = notify "credenciales" w).
  { destruct w as [sv ch adv cb id ini act con cid rst calls ans cnt].
    unfold_module. subst. rewrite Hvalid.
    destruct ch, con; reflexivity. }
  split; [exact Hsame|]. split; [|split].
  - unfold exec. rewrite Hsame, notify_spec.
    destruct w as [sv ch adv cb id ini act con cid rst calls ans cnt].
    unfold_module. destruct ch; [reflexivity | now rewrite app_nil_r].
  - intros f s p. unfold notify_calls.
    destruct (g_characteristic w); [|tauto].
    destruct (g_centralConnected w); simpl; intuition discriminate.
  - unfold exec. rewrite Hsame, notify_spec.
    destruct w as [sv ch adv cb id ini act con cid rst calls ans cnt].
    unfold_module. destruct ch; [reflexivity | congruence].
Qed.

(** C10 at a session begun with an empty callback, a central connected. *)
Lemma C10_write_without_callback_witness :
  ble_calls
    (exec (onWrite (mkCharacteristic (lit "home|hunter2")))
       (run [Call_begin "dev-1" None; Call_startBle; Stack_onConnect 5]
          (boot always_advertising)))
  = ble_calls
      (run [Call_begin "dev-1" None; Call_startBle; Stack_onConnect 5]
         (boot always_advertising))
    ++ [Characteristic_setValue (lit "credenciales"); Characteristic_notify].
Proof.
  exact (proj1 (proj2 (C10_write_without_callback
                         (mkCharacteristic (lit "home|hunter2"))
                         (run [Call_begin "dev-1" None; Call_startBle;
                               Stack_onConnect 5]
                            (boot always_advertising))
                         eq_refl eq_refl))).
Defined.

(** C6 (as amended). A [begin] on an initialized session stores the new
    device ID and the callback it is given (the earlier callback is kept
    only when it is passed again), configures the advertising payload with
    the new name, and sends the status "inactivo"; it makes no call that
    sets up the device, the server, the GATT service or the characteristic,
    and leaves the server, the flags, the connection handle and an
    advertising object already held as they were. *)
Theorem C6_begin_again
  (deviceId : ArduinoString) (callback : CredentialsCallback) (w : World) :
  g_initialized w = true ->
  let w' := exec (begin deviceId callback) w in
  let emitted :=
    match g_advertising w' with
    | Some _ => configure_calls deviceId
    | None => []
    end ++ notify_calls "inactivo" w in
  g_deviceId w' = deviceId /\
  g_callback w' = callback /\
  (callback = g_callback w -> g_callback w' = g_callback w) /\
  ble_calls w' = ble_calls w ++ emitted /\
  existsb is_setup_call emitted = false /\
  g_server w' = g_server w /\
  g_initialized w' = true /\
  g_sessionActive w' = g_sessionActive w /\
  g_centralConnected w' = g_centralConnected w /\
  g_connId w' = g_connId w /\
  g_restartAdvertising w' = g_restartAdvertising w /\
  (g_advertising w <> None -> g_advertising w' = g_advertising w) /\
  g_characteristic w'
  = match g_characteristic w with
    | Some _ => Some (mkCharacteristic (lit "inactivo"))
    | None => None
    end.
Proof.
  intros Hini.
  destruct w as [sv ch adv cb id ini act con cid rst calls ans cnt].
  unfold_module. subst ini. cbv zeta.
  destruct adv as [a|]; [|destruct (ans cnt) as [a|]];
    destruct ch as [c|]; destruct con;
    unfold_module; cbn [app existsb is_setup_call orb];
    repeat split; list_eq; try congruence;
    try (now rewrite app_nil_r).
Qed.

(** C6 at an active session: the same callback passed again. *)
Lemma C6_begin_again_witness :
  g_initialized connected_session = true /\
  g_deviceId (exec (begin "dev-2" (Some 7)) connected_session) = "dev-2" /\
  g_callback (exec (begin "dev-2" (Some 7)) connected_session) = Some 7 /\
  g_sessionActive (exec (begin "dev-2" (Some 7)) connected_session) = true /\
  g_connId (exec (begin "dev-2" (Some 7)) connected_session) = 5%Z.
Proof.
  destruct (C6_begin_again "dev-2" (Some 7) connected_session eq_refl)
    as (Hid & Hcb & _ & _ & _ & _ & _ & Hactive & _ & Hconn & _).
  split; [reflexivity|]. split; [exact Hid|]. split; [exact Hcb|].
  split; [exact Hactive | exact Hconn].
Defined.

(** C6, as stated, fails: a second [begin] with another callback replaces
    the registered one (and one with an empty callback loses it). *)
Lemma C6_counterexample :
  g_initialized idle_session = true /\
  g_callback idle_session = Some 7 /\
  g_callback (exec (begin "dev-2" (Some 8)) idle_session) = Some 8 /\
  g_callback (exec (begin "dev-2" None) idle_session) = None /\
  g_callback (exec (begin "dev-2" (Some 8)) idle_session)
  <> g_callback idle_session.
Proof. repeat split; try reflexivity. vm_compute. discriminate. Qed.

(** C7 (as amended). [stopBle()] on an initialized session with a central
    connected under a valid handle stops advertising, asks the server to
    disconnect the stored handle, and then sets the status to "inactivo"
    (and pushes it); the session is no longer active and no restart is
    pending. [stopBle()] itself leaves the stored handle and the connected
    flag as they were: it is the disconnect event that follows which
    invalidates the handle, and it schedules no restart. *)
Theorem C7_stopBle_connected (w : World) :
  reachable w ->
  g_initialized w = true ->
  g_centralConnected w = true ->
  g_connId w <> kInvalidConnId ->
  let w' := exec stopBle w in
  let w'' := step Stack_onDisconnect w' in
  ble_calls w'
  = ble_calls w
    ++ match g_advertising w with
       | Some _ => [Advertising_stop]
       | None => []
       end
    ++ [Server_disconnect (g_connId w);
        Characteristic_setValue (lit "inactivo");
        Characteristic_notify] /\
  g_characteristic w' = Some (mkCharacteristic (lit "inactivo")) /\
  g_sessionActive w' = false /\
  g_restartAdvertising w' = false /\
  g_connId w' = g_connId w /\
  g_centralConnected w' = true /\
  g_connId w'' = kInvalidConnId /\
  g_centralConnected w'' = false /\
  g_sessionActive w'' = false /\
  g_restartAdvertising w'' = false.
Proof.
  intros Hreach Hini Hcon Hid.
  destruct (reachable_session_inv _ _ Hreach) as [H1 _ _ _ _].
  destruct (H1 Hini) as [Hsv Hch]. clear Hreach H1.
  destruct w as [sv ch adv cb id ini act con cid rst calls ans cnt].
  unfold_module. subst ini con. cbv zeta.
  destruct sv as [s|]; [|congruence].
  destruct ch as [c|]; [|congruence].
  destruct adv as [a|]; unfold_module;
    (destruct (Z.eqb_spec cid kInvalidConnId) as [E|_]; [congruence|]);
    repeat split; list_eq.
Qed.

(** C7 at an active session with a central connected under handle 5. *)
Lemma C7_stopBle_connected_witness :
  g_centralConnected connected_session = true /\
  g_connId connected_session = 5%Z /\
  ble_calls (exec stopBle connected_session)
  = ble_calls connected_session
    ++ [Advertising_stop; Server_disconnect 5;
        Characteristic_setValue (lit "inactivo"); Characteristic_notify] /\
  g_connId (step Stack_onDisconnect (exec stopBle connected_session))
  = kInvalidConnId.
Proof.
  assert (Hvalid : g_connId connected_session <> kInvalidConnId)
    by (vm_compute; discriminate).
  destruct (C7_stopBle_connected connected_session
              (reachable_any _ connected_session_reachable)
              eq_refl eq_refl Hvalid)
    as (Hcalls & _ & _ & _ & _ & _ & Hlater & _).
  split; [reflexivity|]. split; [reflexivity|].
  split; [exact Hcalls | exact Hlater].
Defined.

(** C7, as stated, fails: when [stopBle()] returns, the connection handle
    is still the one stored at connect time, and the central still counts
    as connected. *)
Lemma C7_counterexample :
  g_initialized connected_session = true /\
  g_centralConnected connected_session = true /\
  g_connId (exec stopBle connected_session) = 5%Z /\
  g_centralConnected (exec stopBle connected_session) = true /\
  g_connId (exec stopBle connected_session) <> kInvalidConnId.
Proof. repeat split; try reflexivity. vm_compute. discriminate. Qed.

(** C8 (as amended). In every state reachable from the zero-valued session
    by the module's operations and handlers, the stack handing out at each
    connect a handle other than [kInvalidConnId] (0xFFFF): when
    [g_centralConnected] is true, [g_connId] is not [kInvalidConnId]. *)
Theorem C8_connected_has_handle (w : World) :
  reachable_by valid_handle w ->
  g_centralConnected w = true ->
  g_connId w <> kInvalidConnId.
Proof.
  induction 1 as [answers | e w _ IH He].
  - discriminate.
  - now apply connected_handle_step.
Qed.

(** C8 at a session connected under handle 5. *)
Lemma C8_connected_has_handle_witness :
  g_centralConnected connected_session = true /\
  g_connId connected_session <> kInvalidConnId.
Proof.
  split; [reflexivity|].
  exact (C8_connected_has_handle connected_session
           connected_session_reachable eq_refl).
Defined.

(** C8, as stated, fails: [g_connId] is a [uint16_t] that takes whatever
    [getConnId()] returns, and 0xFFFF is such a value; the session is then
    connected with [g_connId] equal to [kInvalidConnId]. *)
Lemma C8_counterexample :
  reachable (run [Call_begin "dev-1" (Some 7); Stack_onConnect 0xFFFF]
               (boot always_advertising)) /\
  g_centralConnected
    (run [Call_begin "dev-1" (Some 7); Stack_onConnect 0xFFFF]
       (boot always_advertising)) = true /\
  g_connId
    (run [Call_begin "dev-1" (Some 7); Stack_onConnect 0xFFFF]
       (boot always_advertising)) = kInvalidConnId.
Proof.
  split; [|split; reflexivity].
  apply reachable_run; [apply reachable_boot|].
  repeat (apply Forall_cons; [exact I|]). apply Forall_nil.
Qed.

(** * Further properties of the parser *)

(** ** [trim] *)

Lemma trim_front_split (text : std_string) :
  exists pre, text = pre ++ trim_front text /\
              forallb isWhitespace pre = true.
Proof.
  induction text as [|c text (pre & E & Hpre)]; [now exists []|].
  simpl. destruct (isWhitespace c) eqn:Hc.
  - exists (c :: pre). simpl. rewrite Hc, Hpre. now rewrite <- E.
  - now exists [].
Qed.

Lemma trim_back_split (text : std_string) :
  exists post, text = trim_back text ++ post /\
               forallb isWhitespace post = true.
Proof.
  induction text as [|c text (post & E & Hpost)] using rev_ind;
    [now exists []|].
  rewrite trim_back_snoc. destruct (isWhitespace c) eqn:Hc.
  - exists (post ++ [c]). rewrite forallb_app, Hpost. simpl. rewrite Hc.
    split; [|reflexivity].
    rewrite app_assoc, <- E. reflexivity.
  - exists []. now rewrite app_nil_r.
Qed.

Lemma trim_ends (text : std_string) :
  trim text <> [] ->
  isWhitespace (hd NUL (trim text)) = false /\
  isWhitespace (back (trim text)) = false.
Proof.
  intros Hne. split.
  - unfold trim in *. destruct (trim_front text) as [|c rest] eqn:E;
      [now elim Hne|].
    pose proof (trim_front_head _ _ _ E) as Hc.
    destruct (trim_back_keeps_head c rest Hc) as [rest' ->]. exact Hc.
  - unfold trim in *.
    pose proof (trim_back_loop_done (trim_front text)) as Hdone.
    destruct (trim_back (trim_front text)); [now elim Hne|].
    exact Hdone.
Qed.

(** X1. [trim] removes a run of whitespace at the front and one at the
    back, and nothing else: the text is a blank prefix, then [trim text],
    then a blank suffix, and what is left neither starts nor ends with
    whitespace. *)
Theorem X1_trim_strips_blank_ends (text : std_string) :
  exists pre post : std_string,
    text = pre ++ trim text ++ post /\
    forallb isWhitespace pre = true /\
    forallb isWhitespace post = true /\
    (trim text <> [] ->
     isWhitespace (hd NUL (trim text)) = false /\
     isWhitespace (back (trim text)) = false).
Proof.
  destruct (trim_front_split text) as (pre & E1 & Hpre).
  destruct (trim_back_split (trim_front text)) as (post & E2 & Hpost).
  exists pre, post. repeat split; try assumption.
  - unfold trim. now rewrite <- E2.
  - now apply trim_ends.
  - now apply trim_ends.
Qed.

Lemma trim_back_fixed (text : std_string) :
  negb (empty text) && isWhitespace (back text) = false ->
  trim_back text = text.
Proof.
  destruct text as [|c text] using rev_ind; [reflexivity|].
  unfold back. rewrite last_last, trim_back_snoc.
  destruct (text ++ [c]) eqn:E; [now destruct text|].
  simpl. now intros ->.
Qed.

Lemma trim_fixed (text : std_string) :
  isWhitespace (hd SPACE text) = false ->
  negb (empty text) && isWhitespace (back text) = false ->
  trim text = text.
Proof.
  intros Hhd Hback. unfold trim.
  destruct text as [|c text]; [reflexivity|].
  simpl in Hhd. cbn [trim_front]. rewrite Hhd.
  now apply trim_back_fixed.
Qed.

(** X2. [trim] is idempotent, and it returns unchanged a text that neither
    starts nor ends with whitespace. *)
Theorem X2_trim_idempotent (text : std_string) :
  trim (trim text) = trim text /\
  (isWhitespace (hd SPACE text) = false ->
   negb (empty text) && isWhitespace (back text) = false ->
   trim text = text).
Proof.
  split; [|apply trim_fixed].
  destruct (trim text) as [|c rest] eqn:E; [reflexivity|].
  assert (Hne : trim text <> []) by (rewrite E; discriminate).
  destruct (trim_ends text Hne) as [Hhd Hback]. rewrite E in Hhd, Hback.
  apply trim_fixed; [exact Hhd | exact Hback].
Qed.

(** X2 at a text with blanks inside and none at its ends. *)
Lemma X2_trim_idempotent_witness :
  trim (trim (lit "  my wifi  ")) = trim (lit "  my wifi  ") /\
  trim (lit "my wifi") = lit "my wifi".
Proof.
  split.
  - exact (proj1 (X2_trim_idempotent (lit "  my wifi  "))).
  - exact (proj2 (X2_trim_idempotent (lit "my wifi")) eq_refl eq_refl).
Defined.

(** ** The shape of a parse *)

Lemma find_Some_split (s : std_string) (c : ascii) (i : nat) :
  find s c = Some i ->
  exists A B, s = A ++ c :: B /\ List.length A = i /\ ~ In c A.
Proof.
  revert i. induction s as [|x s IH]; simpl; intros i; [discriminate|].
  destruct (Ascii.eqb_spec x c) as [->|Hne].
  - intros [= <-]. exists [], s. simpl. tauto.
  - destruct (find s c) as [j|]; [|discriminate].
    intros [= <-]. destruct (IH j eq_refl) as (A & B & -> & Hlen & HA).
    exists (x :: A), B. simpl. repeat split; [congruence|].
    intros [E|E]; [congruence | tauto].
Qed.

Lemma erase_remove_nonempty (raw : std_string) (c : ascii) :
  erase_remove raw c <> [] -> raw <> [].
Proof. now destruct raw. Qed.

(** Every parse of a payload that is not empty is of one of three kinds. *)
Lemma parse_shape (raw : std_string) :
  raw <> [] ->
  (exists A B, erase_remove raw CR = A ++ LF :: B /\ ~ In LF A /\
               parseCredentials raw = finish_parse A B) \/
  (exists A B, erase_remove raw CR = A ++ PIPE :: B /\
               ~ In LF (erase_remove raw CR) /\ ~ In PIPE A /\
               parseCredentials raw = finish_parse A B) \/
  (~ In LF (erase_remove raw CR) /\ ~ In PIPE (erase_remove raw CR) /\
   parseCredentials raw = parse_error "formato").
Proof.
  intros Hraw.
  destruct (find (erase_remove raw CR) LF) as [i|] eqn:HLF.
  - left. destruct (find_Some_split _ _ _ HLF) as (A & B & E & Hlen & HA).
    exists A, B. repeat split; try assumption.
    apply parse_after_split with (c := LF); try assumption.
    left. now rewrite HLF, Hlen.
  - right. apply find_None_iff in HLF.
    destruct (find (erase_remove raw CR) PIPE) as [i|] eqn:HP.
    + left. destruct (find_Some_split _ _ _ HP) as (A & B & E & Hlen & HA).
      exists A, B. repeat split; try assumption.
      apply parse_after_split with (c := PIPE); try assumption.
      right. split; [now apply find_None_iff | now rewrite HP, Hlen].
    + right. apply find_None_iff in HP. repeat split; try assumption.
      unfold parseCredentials. destruct raw as [|r raw]; [congruence|].
      cbn [empty]. cbv zeta.
      apply find_None_iff in HLF, HP. now rewrite HLF, HP.
Qed.

Lemma finish_parse_valid (A B : std_string) :
  valid (finish_parse A B) = true <-> trim A <> [].
Proof.
  unfold finish_parse. destruct (trim A); simpl; split; congruence.
Qed.

Lemma erase_remove_twice (raw : std_string) (c : ascii) :
  erase_remove (erase_remove raw c) c = erase_remove raw c.
Proof. apply erase_remove_absent. rewrite erase_remove_In. tauto. Qed.

(** X3. Carriage returns never matter to the parse: a payload parses as
    the payload with every carriage return removed does, provided that is
    not empty (a payload of carriage returns alone fails with "formato",
    the empty one with "vacio"). *)
Theorem X3_parse_ignores_CR (raw : std_string) :
  erase_remove raw CR <> [] ->
  parseCredentials raw = parseCredentials (erase_remove raw CR).
Proof.
  intros Hne. pose proof (erase_remove_nonempty _ _ Hne) as Hraw.
  unfold parseCredentials. rewrite erase_remove_twice.
  destruct raw as [|r raw]; [congruence|].
  destruct (erase_remove (r :: raw) CR); [congruence | reflexivity].
Qed.

(** X3 at a payload with carriage returns at the line ends and inside. *)
Lemma X3_parse_ignores_CR_witness :
  parseCredentials (lit "ho" ++ CR :: lit "me" ++ CR :: LF :: lit "pw" ++ [CR])
  = parseCredentials (lit "home" ++ LF :: lit "pw") /\
  parseCredentials [CR; CR] = parse_error "formato".
Proof.
  split; [|reflexivity].
  apply (X3_parse_ignores_CR
           (lit "ho" ++ CR :: lit "me" ++ CR :: LF :: lit "pw" ++ [CR])).
  simpl. discriminate.
Defined.

(** X4. When a parse succeeds: exactly when the payload, its carriage
    returns removed, holds a newline and some byte other than whitespace
    before its first newline, or holds no newline, a pipe, and such a byte
    before its first pipe. *)
Theorem X4_parse_valid_iff (raw : std_string) :
  valid (parseCredentials raw) = true <->
  (exists A B, erase_remove raw CR = A ++ LF :: B /\
               ~ In LF A /\ trim A <> []) \/
  (exists A B, erase_remove raw CR = A ++ PIPE :: B /\
               ~ In LF (erase_remove raw CR) /\ ~ In PIPE A /\
               trim A <> []).
Proof.
  split.
  - intros Hvalid.
    destruct raw as [|r raw]; [discriminate|].
    destruct (parse_shape (r :: raw)) as
      [(A & B & E & HA & Hp) | [(A & B & E & HLF & HA & Hp) | (_ & _ & Hp)]];
      try discriminate.
    + left. exists A, B. repeat split; try assumption.
      apply (finish_parse_valid A B). now rewrite <- Hp.
    + right. exists A, B. repeat split; try assumption.
      apply (finish_parse_valid A B). now rewrite <- Hp.
    + rewrite Hp in Hvalid. discriminate.
  - intros [(A & B & E & HA & Hne) | (A & B & E & HLF & HA & Hne)].
    + rewrite (parse_after_split raw A B LF).
      * now apply finish_parse_valid.
      * apply erase_remove_nonempty with (c := CR). rewrite E. now destruct A.
      * exact E.
      * left. rewrite E. now apply find_first.
    + rewrite (parse_after_split raw A B PIPE).
      * now apply finish_parse_valid.
      * apply erase_remove_nonempty with (c := CR). rewrite E. now destruct A.
      * exact E.
      * right. split; [now apply find_None_iff|].
        rewrite E. now apply find_first.
Qed.

Lemma In_c_str (c : ascii) (s : std_string) :
  In c (c_str s) -> In c s /\ c <> NUL.
Proof.
  induction s as [|x s IH]; simpl; [tauto|].
  destruct (Ascii.eqb_spec x NUL) as [->|Hne]; simpl; [tauto|].
  intros [<-|H]; [tauto|]. destruct (IH H). tauto.
Qed.

Lemma lit_String_of_c_str (s : std_string) : lit (String_of_c_str s) = s.
Proof. apply list_ascii_of_string_of_list_ascii. Qed.

(** X5. What a parse can return: the ssid never holds a carriage return, a
    newline or a NUL, the password never a carriage return or a NUL; and
    when the payload holds no NUL, a valid result has an ssid that is not
    empty. *)
Theorem X5_parse_result_clean (raw : std_string) :
  (forall c, In c (lit (ssid (parseCredentials raw))) ->
             c <> CR /\ c <> LF /\ c <> NUL) /\
  (forall c, In c (lit (password (parseCredentials raw))) ->
             c <> CR /\ c <> NUL) /\
  (~ In NUL raw -> valid (parseCredentials raw) = true ->
   ssid (parseCredentials raw) <> EmptyString).
Proof.
  destruct raw as [|r raw].
  { repeat split; try (simpl in *; tauto); discriminate. }
  assert (Hshape :
    parseCredentials (r :: raw) = parse_error "formato" \/
    exists A B,
      parseCredentials (r :: raw) = finish_parse A B /\
      ~ In LF A /\
      (forall c, In c A \/ In c B -> In c (r :: raw) /\ c <> CR)).
  { destruct (parse_shape (r :: raw)) as
      [(A & B & E & HA & Hp) | [(A & B & E & HLF & HA & Hp) | (_ & _ & Hp)]];
      try discriminate; [right | right | now left].
    - exists A, B. repeat split; try assumption;
        apply (erase_remove_In c CR (r :: raw)); rewrite E, in_app_iff;
        simpl; tauto.
    - exists A, B. repeat split; try assumption.
      + intros Hin. apply HLF. rewrite E, in_app_iff. tauto.
      + apply (erase_remove_In c CR (r :: raw)). rewrite E, in_app_iff.
        simpl. tauto.
      + apply (erase_remove_In c CR (r :: raw)). rewrite E, in_app_iff.
        simpl. tauto. }
  destruct Hshape as [-> | (A & B & -> & HLF & Hsub)].
  { repeat split; try (simpl in *; tauto); discriminate. }
  unfold finish_parse. destruct (trim A) as [|a rest] eqn:EA.
  { repeat split; try (simpl in *; tauto); discriminate. }
  cbn [empty parse_ok ssid password valid]. rewrite !lit_String_of_c_str.
  split; [|split].
  - intros c Hc. apply In_c_str in Hc. destruct Hc as [Hc Hnul].
    rewrite <- EA in Hc. apply trim_In in Hc.
    repeat split; try assumption.
    + apply (Hsub c). now left.
    + intros ->. tauto.
  - intros c Hc. apply In_c_str in Hc. destruct Hc as [Hc Hnul].
    apply trim_In in Hc. split; [|assumption]. apply (Hsub c). now right.
  - intros Hnul _. rewrite c_str_no_NUL.
    + discriminate.
    + intros Hin. rewrite <- EA in Hin. apply trim_In in Hin.
      apply Hnul. apply (Hsub NUL). now left.
Qed.

(** X5 at a payload with no NUL. *)
Lemma X5_parse_result_clean_witness :
  ssid (parseCredentials (lit "home|hunter2")) <> EmptyString /\
  valid (parseCredentials (lit "home|hunter2")) = true.
Proof.
  split; [|reflexivity].
  apply (proj2 (proj2 (X5_parse_result_clean (lit "home|hunter2"))));
    [not_in | reflexivity].
Defined.

(** X6. The pipe, for a payload with no newline: when [A] holds no pipe,
    [A] and [B] hold no newline and no NUL, and [trim A] is not empty,
    ["A|B"] parses with the ssid [A] and the password [B], each with its
    carriage returns removed and then trimmed; pipes in [B] stay in the
    password. *)
Theorem X6_pipe_payload (A B : std_string) :
  ~ In LF A -> ~ In LF B -> ~ In PIPE A ->
  ~ In NUL A -> ~ In NUL B ->
  trim A <> [] ->
  parseCredentials (A ++ PIPE :: B)
  = parse_ok (trim (erase_remove A CR)) (trim (erase_remove B CR)).
Proof.
  intros HA HB HP HnA HnB Hssid.
  rewrite parse_pipe_split by assumption.
  rewrite finish_parse_ok by (now rewrite trim_erase_CR_nil_iff).
  rewrite !c_str_no_NUL; [reflexivity | |].
  - intros H. apply trim_In, erase_remove_In in H. tauto.
  - intros H. apply trim_In, erase_remove_In in H. tauto.
Qed.

(** X6 at a payload with blanks around the ssid and pipes in the
    password. *)
Lemma X6_pipe_payload_witness :
  parseCredentials (lit " home " ++ PIPE :: lit " a|b|c" ++ [CR])
  = parse_ok (lit "home") (lit "a|b|c").
Proof.
  apply (X6_pipe_payload (lit " home ") (lit " a|b|c" ++ [CR])); not_in.
Defined.

(** * Further properties of the session *)

(** ** Invariants *)

(** X7. In every reachable state the flags agree: a pending restart means
    an active session; an active session is initialized and holds an
    advertising object; an initialized session holds its server and its
    characteristic. *)
Theorem X7_flags_consistent (w : World) :
  reachable w ->
  (g_restartAdvertising w = true -> g_sessionActive w = true) /\
  (g_sessionActive w = true ->
   g_initialized w = true /\ g_advertising w <> None) /\
  (g_initialized w = true ->
   g_server w <> None /\ g_characteristic w <> None).
Proof.
  intros Hreach.
  destruct (reachable_session_inv _ _ Hreach) as [H1 H2 H3 _ _].
  auto.
Qed.

(** X7 at an active session with a central connected. *)
Lemma X7_flags_consistent_witness :
  g_sessionActive connected_session = true /\
  g_initialized connected_session = true /\
  g_advertising connected_session <> None.
Proof.
  split; [reflexivity|].
  exact (proj1 (proj2 (X7_flags_consistent connected_session
                         (reachable_any _ connected_session_reachable)))
           eq_refl).
Defined.

(** X8. In every reachable state, whatever handles the stack gives:
    [g_connId] is [kInvalidConnId] whenever no central is connected, and it
    is always a 16-bit value. *)
Theorem X8_not_connected_no_handle (w : World) :
  reachable w ->
  (g_centralConnected w = false -> g_connId w = kInvalidConnId) /\
  (0 <= g_connId w < 65536)%Z.
Proof.
  intros Hreach.
  destruct (reachable_session_inv _ _ Hreach) as [_ _ _ H4 H5].
  auto.
Qed.

(** X8 after a connect under a handle beyond 16 bits and a disconnect. *)
Lemma X8_not_connected_no_handle_witness :
  g_connId (run [Call_begin "dev-1" None; Stack_onConnect 65541]
              (boot always_advertising)) = 5%Z /\
  g_connId (run [Call_begin "dev-1" None; Stack_onConnect 65541;
                 Stack_onDisconnect]
              (boot always_advertising)) = kInvalidConnId.
Proof.
  split; [reflexivity|].
  apply (X8_not_connected_no_handle
           (run [Call_begin "dev-1" None; Stack_onConnect 65541;
                 Stack_onDisconnect]
              (boot always_advertising))); [|reflexivity].
  apply reachable_run; [apply reachable_boot|].
  repeat (apply Forall_cons; [exact I|]). apply Forall_nil.
Defined.

Lemma begin_initializes
  (deviceId : ArduinoString) (callback : CredentialsCallback) (w : World) :
  g_initialized (exec (begin deviceId callback) w) = true.
Proof.
  destruct w as [sv ch adv cb id ini act con cid rst calls ans cnt].
  world_cases; reflexivity.
Qed.

Lemma initialized_stays (e : Event) (w : World) :
  g_initialized w = true -> g_initialized (step e w) = true.
Proof.
  destruct w as [sv ch adv cb id ini act con cid rst calls ans cnt].
  destruct e; world_cases; intros; congruence.
Qed.

Lemma pointers_stay (e : Event) (w : World) :
  g_initialized w = true ->
  g_server (step e w) = g_server w /\
  (g_advertising w <> None -> g_advertising (step e w) = g_advertising w).
Proof.
  destruct w as [sv ch adv cb id ini act con cid rst calls ans cnt].
  destruct e; world_cases; split; intros; congruence.
Qed.

(** X9. [begin] always leaves the session initialized, and nothing undoes
    it: on an initialized session no call and no event clears
    [g_initialized], replaces the server, or drops an advertising object
    once held. *)
Theorem X9_initialized_for_good
  (deviceId : ArduinoString) (callback : CredentialsCallback)
  (e : Event) (w : World) :
  g_initialized (exec (begin deviceId callback) w) = true /\
  (g_initialized w = true ->
   g_initialized (step e w) = true /\
   g_server (step e w) = g_server w /\
   (g_advertising w <> None -> g_advertising (step e w) = g_advertising w)).
Proof.
  split; [apply begin_initializes|].
  intros Hini. split; [now apply initialized_stays | now apply pointers_stay].
Qed.

(** X9 at an idle session, under [stopBle()]. *)
Lemma X9_initialized_for_good_witness :
  g_initialized (step Call_stopBle idle_session) = true /\
  g_advertising (step Call_stopBle idle_session) = Some TheAdvertising.
Proof.
  destruct (X9_initialized_for_good "dev-1" None Call_stopBle idle_session)
    as (_ & Hstay).
  destruct (Hstay eq_refl) as (Hini & _ & Hadv).
  split; [exact Hini|].
  rewrite Hadv; [reflexivity | discriminate].
Defined.

Lemma boot_inert (e : Event) (answers : nat -> option BLEAdvertising) :
  g_initialized (step e (boot answers)) = false ->
  step e (boot answers) = boot answers.
Proof.
  destruct e; try reflexivity.
  intros H. exfalso.
  unfold step in H. rewrite begin_initializes in H. discriminate.
Qed.

Lemma reachable_uninitialized (w : World) :
  reachable w ->
  g_initialized w = false ->
  exists answers, w = boot answers.
Proof.
  induction 1 as [answers | e w _ IH _]; intros Hini.
  - now exists answers.
  - destruct (g_initialized w) eqn:Hw.
    + rewrite (initialized_stays e w Hw) in Hini. discriminate.
    + destruct (IH eq_refl) as [answers ->].
      exists answers. now apply boot_inert.
Qed.

(** X10. Before the first [begin] nothing has any effect: a reachable
    state that is not initialized is the state the process started in, with
    no call made to the stack. *)
Theorem X10_inert_before_begin (w : World) :
  reachable w ->
  g_initialized w = false ->
  exists answers, w = boot answers.
Proof. exact (reachable_uninitialized w). Qed.

(** X10 after a run of calls and events with no [begin]. *)
Lemma X10_inert_before_begin_witness :
  exists answers,
    run [Call_startBle; Call_notifyStatus "hola"; Stack_onConnect 3;
         Call_loop; Call_stopBle] (boot always_advertising)
    = boot answers.
Proof.
  apply X10_inert_before_begin; [|reflexivity].
  apply reachable_run; [apply reachable_boot|].
  repeat (apply Forall_cons; [exact I|]). apply Forall_nil.
Defined.

Lemma count_calls_app (kind : BleCall -> bool) (l1 l2 : list BleCall) :
  count_calls kind (l1 ++ l2) = count_calls kind l1 + count_calls kind l2.
Proof. unfold count_calls. now rewrite filter_app, length_app. Qed.

Ltac count_log :=
  rewrite ?count_calls_app;
  cbn [count_calls filter List.length is_createServer is_createService
       is_createCharacteristic];
  try lia.

Lemma created_once_step (kind : BleCall -> bool) (e : Event) (w : World) :
  kind = is_createServer \/ kind = is_createService \/
  kind = is_createCharacteristic ->
  count_calls kind (ble_calls w) = (if g_initialized w then 1 else 0) ->
  count_calls kind (ble_calls (step e w))
  = (if g_initialized (step e w) then 1 else 0).
Proof.
  intros Hkind.
  destruct w as [sv ch adv cb id ini act con cid rst calls ans cnt].
  destruct e; world_cases; intros IH;
    destruct Hkind as [ -> | [ -> | -> ] ]; count_log.
Qed.

Lemma advertising_requested_app (l1 l2 : list BleCall) :
  advertising_requested (l1 ++ l2)
  = fold_left
      (fun on c =>
         match c with
         | Advertising_start => true
         | Advertising_stop => false
         | _ => on
         end)
      l2 (advertising_requested l1).
Proof. unfold advertising_requested. now rewrite fold_left_app. Qed.

Lemma advertising_matches_step (e : Event) (w : World) :
  session_inv w ->
  advertising_requested (ble_calls w) = g_sessionActive w ->
  advertising_requested (ble_calls (step e w)) = g_sessionActive (step e w).
Proof.
  intros [_ H2 _ _ _].
  destruct w as [sv ch adv cb id ini act con cid rst calls ans cnt].
  destruct e; world_cases; intros IH;
    rewrite ?advertising_requested_app; cbn [fold_left];
    unfold_module; try congruence; try reflexivity.
  all: rewrite IH; destruct act; [|reflexivity].
  all: destruct (H2 eq_refl); congruence.
Qed.

Lemma advertising_matches_reachable (w : World) :
  reachable w ->
  advertising_requested (ble_calls w) = g_sessionActive w.
Proof.
  induction 1 as [answers | e w Hreach IH _].
  - reflexivity.
  - apply advertising_matches_step; [|exact IH].
    exact (reachable_session_inv _ _ Hreach).
Qed.

(** X11. The server, the GATT service and the characteristic are created
    exactly once: in every reachable state each of the three calls has been
    made once if the session is initialized, and never otherwise. *)
Theorem X11_created_once (w : World) :
  reachable w ->
  count_calls is_createServer (ble_calls w)
  = (if g_initialized w then 1 else 0) /\
  count_calls is_createService (ble_calls w)
  = (if g_initialized w then 1 else 0) /\
  count_calls is_createCharacteristic (ble_calls w)
  = (if g_initialized w then 1 else 0).
Proof.
  induction 1 as [answers | e w _ (IH1 & IH2 & IH3) _].
  - repeat split.
  - repeat split; apply created_once_step; auto.
Qed.

(** X11 after three [begin]s with a session in between. *)
Lemma X11_created_once_witness :
  count_calls is_createService
    (ble_calls
       (run [Call_begin "dev-1" None; Call_startBle; Call_begin "dev-2" None;
             Call_stopBle; Call_begin "dev-3" (Some 1)]
          (boot always_advertising))) = 1.
Proof.
  apply (X11_created_once
           (run [Call_begin "dev-1" None; Call_startBle;
                 Call_begin "dev-2" None;
                 Call_stopBle; Call_begin "dev-3" (Some 1)]
              (boot always_advertising))).
  apply reachable_run; [apply reachable_boot|].
  repeat (apply Forall_cons; [exact I|]). apply Forall_nil.
Defined.

(** X12. What the module last asked of the advertising object follows the
    session: in every reachable state the last of its [start()] and
    [stop()] calls is a [start()] exactly when [g_sessionActive] is true; it
    never leaves advertising on behind an inactive session. *)
Theorem X12_advertising_follows_session (w : World) :
  reachable w ->
  advertising_requested (ble_calls w) = g_sessionActive w.
Proof. exact (advertising_matches_reachable w). Qed.

(** X12 after a session that saw a disconnect, a restart and a stop. *)
Lemma X12_advertising_follows_session_witness :
  advertising_requested
    (ble_calls
       (run [Call_begin "dev-1" None; Call_startBle; Stack_onConnect 5;
             Stack_onDisconnect; Call_loop; Call_stopBle; Call_loop]
          (boot always_advertising))) = false /\
  advertising_requested
    (ble_calls (step Call_loop (step Stack_onDisconnect connected_session)))
  = true.
Proof.
  split.
  - apply (X12_advertising_follows_session
             (run [Call_begin "dev-1" None; Call_startBle; Stack_onConnect 5;
                   Stack_onDisconnect; Call_loop; Call_stopBle; Call_loop]
                (boot always_advertising))).
    apply reachable_run; [apply reachable_boot|].
    repeat (apply Forall_cons; [exact I|]). apply Forall_nil.
  - apply (X12_advertising_follows_session
             (step Call_loop (step Stack_onDisconnect connected_session))).
    do 2 (apply reachable_step; [|exact I]).
    exact (reachable_any _ connected_session_reachable).
Defined.

(** ** What the calls do *)

(** X13. [stopBle()] does nothing on a session that is not initialized,
    and a second [stopBle()] leaves every global as the first left it. *)
Theorem X13_stopBle_idempotent (w : World) :
  (g_initialized w = false -> stopBle w = (tt, w)) /\
  globals (exec stopBle (exec stopBle w)) = globals (exec stopBle w).
Proof.
  destruct w as [sv ch adv cb id ini act con cid rst calls ans cnt].
  split.
  - unfold_module. intros ->. reflexivity.
  - world_cases; reflexivity.
Qed.

(** X13 before [begin], and at a session with a central connected. *)
Lemma X13_stopBle_idempotent_witness :
  stopBle (boot always_advertising) = (tt, boot always_advertising) /\
  globals (exec stopBle (exec stopBle connected_session))
  = globals (exec stopBle connected_session).
Proof.
  split.
  - exact (proj1 (X13_stopBle_idempotent (boot always_advertising)) eq_refl).
  - exact (proj2 (X13_stopBle_idempotent connected_session)).
Defined.

(** X14. [startBle()] on an initialized session that holds an advertising
    object returns true: it configures the advertising payload with the
    current device name, starts advertising, sends the status "activo",
    marks the session active and drops a pending restart; it does not ask
    the stack for the advertising object again and changes no other
    global. *)
Theorem X14_startBle_starts (w : World) :
  g_initialized w = true ->
  g_advertising w <> None ->
  let w' := exec startBle w in
  fst (startBle w) = true /\
  ble_calls w'
  = ble_calls w ++ configure_calls (g_deviceId w) ++ [Advertising_start]
    ++ notify_calls "activo" w /\
  g_sessionActive w' = true /\
  g_restartAdvertising w' = false /\
  g_characteristic w'
  = match g_characteristic w with
    | Some _ => Some (mkCharacteristic (lit "activo"))
    | None => None
    end /\
  ble_getAdvertising_count w' = ble_getAdvertising_count w /\
  (g_server w', g_advertising w', g_callback w', g_deviceId w',
   g_initialized w', g_centralConnected w', g_connId w')
  = (g_server w, g_advertising w, g_callback w, g_deviceId w,
     g_initialized w, g_centralConnected w, g_connId w).
Proof.
  intros Hini Hadv.
  destruct w as [sv ch adv cb id ini act con cid rst calls ans cnt].
  unfold_module. subst ini. cbv zeta.
  destruct adv as [a|]; [|congruence].
  destruct ch as [c|]; destruct con; unfold_module;
    repeat split; list_eq.
Qed.

(** X14 at an idle session. *)
Lemma X14_startBle_starts_witness :
  fst (startBle idle_session) = true /\
  ble_calls (exec startBle idle_session)
  = ble_calls idle_session
    ++ [Advertising_setAdvertisementData "dev-1" kServiceUuid;
        Advertising_setScanResponse false;
        Advertising_setMinPreferred 6; Advertising_setMaxPreferred 18;
        Advertising_start; Characteristic_setValue (lit "activo")].
Proof.
  assert (Hadv : g_advertising idle_session <> None) by discriminate.
  destruct (X14_startBle_starts idle_session eq_refl Hadv)
    as (Hret & Hcalls & _).
  split; [exact Hret | exact Hcalls].
Defined.

(** X15. The first [begin]: it stores the device ID and the callback,
    initializes the device under that name, creates the server, the service
    and the characteristic in this order, stores "inactivo", and leaves the
    session inactive and unconnected. It asks for the advertising object
    once, and once more when the first answer is null; the service UUID is
    added to the advertising object only when the first answer gave it. *)
Theorem X15_first_begin
  (deviceId : ArduinoString) (callback : CredentialsCallback)
  (answers : nat -> option BLEAdvertising) :
  let w := exec (begin deviceId callback) (boot answers) in
  g_advertising w
  = match answers 0 with
    | Some a => Some a
    | None => answers 1
    end /\
  ble_getAdvertising_count w
  = match answers 0 with
    | Some _ => 1
    | None => 2
    end /\
  ble_calls w
  = [BLEDevice_init deviceId; BLEDevice_createServer; Server_setCallbacks;
     Server_createService kServiceUuid;
     Service_createCharacteristic kCharacteristicUuid;
     Characteristic_addDescriptor; Characteristic_setCallbacks;
     Characteristic_setValue (lit "inactivo"); Service_start]
    ++ match answers 0 with
       | Some _ => [Advertising_addServiceUUID kServiceUuid]
       | None => []
       end
    ++ match g_advertising w with
       | Some _ => configure_calls deviceId
       | None => []
       end
    ++ [Characteristic_setValue (lit "inactivo")] /\
  globals w
  = (Some TheServer, Some (mkCharacteristic (lit "inactivo")),
     g_advertising w, callback, deviceId,
     (true, false, false, kInvalidConnId, false)).
Proof.
  cbv zeta. unfold globals. unfold_module.
  destruct (answers 0) as [a|]; [|destruct (answers 1) as [a|]];
    unfold_module; repeat split.
Qed.

(** X16. A write that does not parse: [onWrite] sends the status "error:"
    followed by the reason, which is "vacio", "formato" or "ssid", and does
    nothing else; it calls no callback. *)
Theorem X16_write_rejected (characteristic : BLECharacteristic) (w : World) :
  valid (parseCredentials (m_value characteristic)) = false ->
  let reason := error (parseCredentials (m_value characteristic)) in
  onWrite characteristic w = notify ("error:" ++ reason)%string w /\
  In reason ["vacio"; "formato"; "ssid"]%string /\
  ble_calls (exec (onWrite characteristic) w)
  = ble_calls w ++ notify_calls ("error:" ++ reason)%string w.
Proof.
  intros Hvalid reason.
  assert (Hsame : onWrite characteristic w
                  = notify ("error:" ++ reason)%string w).
  { unfold onWrite. cbv zeta. now rewrite Hvalid. }
  split; [exact Hsame|]. split.
  - subst reason.
    destruct (parse_outcome (m_value characteristic))
      as [E|[E|[E|[E _]]]]; rewrite E in *; simpl; try tauto.
    discriminate.
  - unfold exec. rewrite Hsame, notify_spec.
    destruct w as [sv ch adv cb id ini act con cid rst calls ans cnt].
    unfold_module. destruct ch; [reflexivity | now rewrite app_nil_r].
Qed.

(** X16 at a write with no separator, a central connected. *)
Lemma X16_write_rejected_witness :
  ble_calls (exec (onWrite (mkCharacteristic (lit "home"))) connected_session)
  = ble_calls connected_session
    ++ [Characteristic_setValue (lit "error:formato"); Characteristic_notify].
Proof.
  exact (proj2 (proj2 (X16_write_rejected (mkCharacteristic (lit "home"))
                         connected_session eq_refl))).
Defined.

(** X17. A write that parses, with a callback registered: [onWrite] sends
    the status "credenciales" and then calls the callback, once, with the
    parsed ssid and password. *)
Theorem X17_write_accepted
  (characteristic : BLECharacteristic) (f : nat) (w : World) :
  g_callback w = Some f ->
  valid (parseCredentials (m_value characteristic)) = true ->
  ble_calls (exec (onWrite characteristic) w)
  = ble_calls w ++ notify_calls "credenciales" w
    ++ [Callback_call f
          (ssid (parseCredentials (m_value characteristic)))
          (password (parseCredentials (m_value characteristic)))].
Proof.
  intros Hcb Hvalid.
  destruct w as [sv ch adv cb id ini act con cid rst calls ans cnt].
  unfold_module. subst. rewrite Hvalid.
  destruct ch, con; unfold_module; list_eq.
Qed.

(** X17 at a write of "home|hunter2", a central connected. *)
Lemma X17_write_accepted_witness :
  ble_calls
    (exec (onWrite (mkCharacteristic (lit "home|hunter2"))) connected_session)
  = ble_calls connected_session
    ++ [Characteristic_setValue (lit "credenciales"); Characteristic_notify;
        Callback_call 7 "home" "hunter2"].
Proof.
  exact (X17_write_accepted (mkCharacteristic (lit "home|hunter2")) 7
           connected_session eq_refl eq_refl).
Defined.

(** X18. A peer's write, whatever its bytes, keeps the session as it is:
    no flag, handle, pointer, device ID or callback changes, so the session
    stays open for another write. *)
Theorem X18_write_keeps_session (payload : std_string) (w : World) :
  let w' := step (Stack_onWrite payload) w in
  (g_server w', g_advertising w', g_callback w', g_deviceId w',
   g_initialized w', g_sessionActive w', g_centralConnected w', g_connId w',
   g_restartAdvertising w')
  = (g_server w, g_advertising w, g_callback w, g_deviceId w,
     g_initialized w, g_sessionActive w, g_centralConnected w, g_connId w,
     g_restartAdvertising w).
Proof.
  destruct w as [sv ch adv cb id ini act con cid rst calls ans cnt].
  world_cases; reflexivity.
Qed.

(** X19. [loop()] in a reachable state: afterwards no restart is pending;
    when one was pending it starts advertising once, otherwise it changes
    nothing; and a second [loop()] right after changes nothing. *)
Theorem X19_loop_settles (w : World) :
  reachable w ->
  g_restartAdvertising (step Call_loop w) = false /\
  (g_restartAdvertising w = true ->
   ble_calls (step Call_loop w) = ble_calls w ++ [Advertising_start]) /\
  (g_restartAdvertising w = false -> step Call_loop w = w) /\
  step Call_loop (step Call_loop w) = step Call_loop w.
Proof.
  intros Hreach.
  destruct (reachable_session_inv _ _ Hreach) as [_ H2 H3 _ _].
  assert (Hclear : g_restartAdvertising (step Call_loop w) = false).
  { destruct w as [sv ch adv cb id ini act con cid rst calls ans cnt].
    unfold_module. destruct rst; [|reflexivity].
    specialize (H3 eq_refl). subst act.
    destruct (H2 eq_refl) as [_ Hadv].
    destruct adv; [reflexivity | congruence]. }
  split; [exact Hclear|]. split; [|split].
  - destruct w as [sv ch adv cb id ini act con cid rst calls ans cnt].
    unfold_module. intros ->.
    specialize (H3 eq_refl). subst act.
    destruct (H2 eq_refl) as [_ Hadv].
    destruct adv; [reflexivity | congruence].
  - apply loop_idle.
  - now apply loop_idle.
Qed.

(** X19 at a session whose central has just disconnected. *)
Lemma X19_loop_settles_witness :
  g_restartAdvertising (step Stack_onDisconnect connected_session) = true /\
  g_restartAdvertising
    (step Call_loop (step Stack_onDisconnect connected_session)) = false.
Proof.
  split; [reflexivity|].
  apply (X19_loop_settles (step Stack_onDisconnect connected_session)).
  apply reachable_step; [|exact I].
  exact (reachable_any _ connected_session_reachable).
Defined.

(** X20. A connect followed by its disconnect, on a reachable initialized
    session with no central connected: the world is as before, except that
    a restart is pending when the session is active. *)
Theorem X20_connect_disconnect (getConnId : Z) (w : World) :
  reachable w ->
  g_initialized w = true ->
  g_centralConnected w = false ->
  step Stack_onDisconnect (step (Stack_onConnect getConnId) w)
  = if g_sessionActive w then set_g_restartAdvertising true w else w.
Proof.
  intros Hreach Hini Hcon.
  destruct (reachable_session_inv _ _ Hreach) as [H1 _ _ H4 _].
  destruct (H1 Hini) as [Hsv _]. specialize (H4 Hcon).
  destruct w as [sv ch adv cb id ini act con cid rst calls ans cnt].
  unfold_module. subst.
  destruct sv; [|congruence]. destruct act; reflexivity.
Qed.

(** X20 at an idle session. *)
Lemma X20_connect_disconnect_witness :
  step Stack_onDisconnect (step (Stack_onConnect 9) idle_session)
  = idle_session.
Proof.
  exact (X20_connect_disconnect 9 idle_session
           (reachable_any _ idle_session_reachable) eq_refl eq_refl).
Defined.

(** X21. A later [begin] asks the stack for the advertising object again
    exactly when none is held, and keeps what it is given: [startBle()]
    right after that [begin] succeeds exactly when an advertising object is
    then held. *)
Theorem X21_begin_retries_advertising
  (deviceId : ArduinoString) (callback : CredentialsCallback) (w : World) :
  g_initialized w = true ->
  let w' := exec (begin deviceId callback) w in
  (g_advertising w = None ->
   g_advertising w' = ble_getAdvertising w (ble_getAdvertising_count w) /\
   ble_getAdvertising_count w' = S (ble_getAdvertising_count w)) /\
  (g_advertising w <> None ->
   ble_getAdvertising_count w' = ble_getAdvertising_count w) /\
  (fst (startBle w') = true <-> g_advertising w' <> None).
Proof.
  intros Hini.
  destruct w as [sv ch adv cb id ini act con cid rst calls ans cnt].
  unfold_module. subst ini. cbv zeta.
  destruct adv as [a|]; [|destruct (ans cnt) as [a|] eqn:E];
    destruct ch as [c|]; destruct con; unfold_module;
    repeat split; intros; congruence.
Qed.

(** X21 at a session begun on a stack that gave no advertising object
    until its third answer. *)
Lemma X21_begin_retries_advertising_witness :
  fst (startBle (run [Call_begin "dev-1" None] (boot late_advertising)))
  = false /\
  fst (startBle
         (run [Call_begin "dev-1" None; Call_begin "dev-1" None]
            (boot late_advertising)))
  = true.
Proof.
  split; [reflexivity|].
  apply (X21_begin_retries_advertising "dev-1" None
           (run [Call_begin "dev-1" None] (boot late_advertising)) eq_refl).
  discriminate.
Defined.

(** X22. The status channel in a reachable state: before the first [begin]
    a status is dropped and nothing changes; on an initialized session the
    message, up to its first NUL, becomes the characteristic's value, it is
    pushed to the central exactly when one is connected, and no other
    global changes. *)
Theorem X22_status_channel (message : ArduinoString) (w : World) :
  reachable w ->
  let w' := exec (notifyStatus message) w in
  (g_initialized w = false -> w' = w) /\
  (g_initialized w = true ->
   g_characteristic w' = Some (mkCharacteristic (c_str (lit message))) /\
   ble_calls w'
   = ble_calls w
     ++ Characteristic_setValue (c_str (lit message))
        :: (if g_centralConnected w then [Characteristic_notify] else []) /\
   (g_server w', g_advertising w', g_callback w', g_deviceId w',
    g_initialized w', g_sessionActive w', g_centralConnected w', g_connId w',
    g_restartAdvertising w')
   = (g_server w, g_advertising w, g_callback w, g_deviceId w,
      g_initialized w, g_sessionActive w, g_centralConnected w, g_connId w,
      g_restartAdvertising w)).
Proof.
  intros Hreach. cbv zeta. split.
  - intros Hini.
    destruct (reachable_uninitialized w Hreach Hini) as [answers ->].
    reflexivity.
  - intros Hini.
    destruct (reachable_session_inv _ _ Hreach) as [H1 _ _ _ _].
    destruct (H1 Hini) as [_ Hch].
    destruct w as [sv ch adv cb id ini act con cid rst calls ans cnt].
    unfold_module. destruct ch as [c|]; [|congruence].
    destruct con; unfold_module; repeat split; list_eq.
Qed.

(** X22 at an idle session, no central connected. *)
Lemma X22_status_channel_witness :
  g_characteristic (exec (notifyStatus "wifi-failed") idle_session)
  = Some (mkCharacteristic (lit "wifi-failed")) /\
  ble_calls (exec (notifyStatus "wifi-failed") idle_session)
  = ble_calls idle_session ++ [Characteristic_setValue (lit "wifi-failed")].
Proof.
  destruct (X22_status_channel "wifi-failed" idle_session
              (reachable_any _ idle_session_reachable))
    as (_ & Hinit).
  destruct (Hinit eq_refl) as (Hvalue & Hcalls & _).
  split; [exact Hvalue | exact Hcalls].
Defined.
